(** * mingw.condition_variable.h: the condition variables of mingw-std-threads

    The header implements [std::condition_variable] twice: namespace [xp]
    emulates it with a counting semaphore, an auto-reset event, a recursive
    mutex and an atomic waiter counter; namespace [vista] wraps the native
    Win32 condition variable.  The development below embeds both as one
    interleaved machine: every thread has a program counter ranging over the
    statements of the header, one step executes one statement of one thread
    against the shared objects, and a schedule is a list of such steps.
    Time is not measured: the schedule says when the time-out of a pending
    wait elapses.  *)

From stdpp Require Import base list.
From Stdlib Require Import ZArith Lia.

Local Open Scope Z_scope.

(** ** Win32 constants (winbase.h, winnt.h) used by the header *)

Definition WAIT_OBJECT_0 : Z := 0.
Definition WAIT_ABANDONED : Z := 128.
Definition WAIT_TIMEOUT : Z := 258.
Definition WAIT_FAILED : Z := 4294967295.
Definition INFINITE : Z := 4294967295.

(** Maximum count given to [CreateSemaphore] at line 59. *)
Definition SEMAPHORE_MAX : Z := 65535.

(** [DWORD] is an unsigned 32-bit integer; [int] and [LONG] are signed 32-bit
    integers.  Conversions and arithmetic wrap. *)
Definition DWORD_of (z : Z) : Z := z mod 2 ^ 32.
Definition int_of (z : Z) : Z := (z + 2 ^ 31) mod 2 ^ 32 - 2 ^ 31.

(** [long long], in which [std::chrono] converts and combines counts of a
    signed integral representation, is a signed 64-bit integer; its
    arithmetic wraps. *)
Definition long_long (z : Z) : Z := (z + 2 ^ 63) mod 2 ^ 64 - 2 ^ 63.

(** ** Durations

    [duration_cast<milliseconds>] of a count of ticks of period [num/den]
    seconds.  The conversion factor is the ratio [num/den : 1/1000] in lowest
    terms, [ratio_num / ratio_den]; the count is multiplied by the numerator
    in 64-bit arithmetic and the product divided by the denominator, the
    quotient truncated toward zero. *)
Definition ratio_num (num den : positive) : Z :=
  Z.pos num * 1000 / Z.gcd (Z.pos num * 1000) (Z.pos den).

Definition ratio_den (num den : positive) : Z :=
  Z.pos den / Z.gcd (Z.pos num * 1000) (Z.pos den).

Definition duration_cast_milliseconds (num den : positive) (count : Z) : Z :=
  Z.quot (long_long (count * ratio_num num den)) (ratio_den num den).

(** Lines 155-158 (and, with the same text, 307-310 and 425-428): the
    millisecond count is clamped below at zero and cast to [DWORD]. *)
Definition wait_for_timeout (count_ms : Z) : Z :=
  let timeout := if count_ms <? 0 then 0 else count_ms in
  DWORD_of timeout.

(** ** Win32 kernel objects

    A [HANDLE] is modelled by [option]: [None] is the null handle that
    [CreateSemaphore] and [CreateEvent] return when they fail. *)

Definition CreateSemaphore (created : bool) (initial : Z) : option Z :=
  if created then Some initial else None.

Definition CreateEvent (created : bool) (initial : bool) : option bool :=
  if created then Some initial else None.

(** [ReleaseSemaphore h n NULL] adds [n] to the count; it fails, leaving the
    count as it is, on a null handle, when [n] is not positive, or when the
    count would exceed the maximum. *)
Definition ReleaseSemaphore (h : option Z) (n : Z) : option Z * bool :=
  match h with
  | None => (None, false)
  | Some c =>
      if (0 <? n) && (c + n <=? SEMAPHORE_MAX)
      then (Some (c + n), true) else (Some c, false)
  end.

Definition SetEvent (h : option bool) : option bool :=
  match h with
  | None => None
  | Some _ => Some true
  end.

(** A semaphore is signaled while its count is positive and a successful wait
    takes one unit; an auto-reset event is reset by a successful wait. *)
Definition semaphore_acquire (c : Z) : option Z :=
  if 0 <? c then Some (c - 1) else None.

Definition event_acquire (b : bool) : option bool :=
  if b then Some false else None.

(** [WaitForSingleObject h timeout]: the result is [None] while the caller
    stays blocked.  [expired] tells that the time-out interval of a pending
    wait has elapsed; a zero interval only tests the object. *)
Definition WaitForSingleObject {A} (acquire : A → option A) (h : option A)
    (timeout : Z) (expired : bool) : option (option A * Z) :=
  match h with
  | None => Some (None, WAIT_FAILED)
  | Some o =>
      match acquire o with
      | Some o' => Some (Some o', WAIT_OBJECT_0)
      | None =>
          if (timeout =? 0) || (expired && negb (timeout =? INFINITE))
          then Some (Some o, WAIT_TIMEOUT) else None
      end
  end.

(** [recursive_mutex]: the owning thread and its recursion depth. *)
Definition recursive_lock (t : nat) (m : option (nat * nat)) : option (option (nat * nat)) :=
  match m with
  | None => Some (Some (t, 1%nat))
  | Some (o, d) => if Nat.eqb o t then Some (Some (t, S d)) else None
  end.

Definition recursive_unlock (t : nat) (m : option (nat * nat)) : option (option (nat * nat)) :=
  match m with
  | Some (o, S (S d)) => if Nat.eqb o t then Some (Some (o, S d)) else None
  | Some (o, _) => if Nat.eqb o t then Some None else None
  | None => None
  end.

(** The caller's lock [M]: [lock()] blocks while another thread owns it;
    [unlock()] is only defined for the owner. *)
Definition owned_by (t : nat) (l : option nat) : bool :=
  match l with
  | Some o => Nat.eqb o t
  | None => false
  end.

(** ** The two engines and the values their operations produce *)

Inductive Engine := XP | Vista.

(** Line 37. *)
Inductive cv_status := no_timeout | timeout.

Inductive errc := EPROTO | resource_deadlock_would_occur.

(** How the process died: [std::terminate()] or a failed [assert]. *)
Inductive halt := Terminated | Aborted.

(** What the machine is built for: which class the object is an instance of
    (lines 462-468 select it by [WINVER]), whether [assert] is compiled out,
    the period of the clock tick in seconds, [tick_num / tick_den] (time
    points and durations are counts of this tick), and the type of the
    client's data guarded by the caller's lock, which predicates read. *)
Class Config := {
  engine : Engine;
  NDEBUG : bool;
  tick_num : positive;
  tick_den : positive;
  Data : Type
}.

Section Machine.

Context {cfg : Config}.

Definition Predicate : Type := Data → bool.

Inductive call :=
| call_wait
| call_wait_pred (pred : Predicate)
| call_wait_for (rel_time : Z)
| call_wait_for_pred (rel_time : Z) (pred : Predicate)
| call_wait_until (abs_time : Z)
| call_wait_until_pred (abs_time : Z) (pred : Predicate)
| call_notify_one
| call_notify_all.

(** What a finished call handed back to the client. *)
Inductive result :=
| returned_wait
| returned_wait_pred (pred : Predicate)
| returned_status (st : cv_status)
| returned_pred_value (b : bool)
| returned_notify
| thrown (e : errc).

(** The caller of [wait_impl], to which its [bool] goes. *)
Inductive cont :=
| k_wait                                             (* line 103 *)
| k_wait_pred (pred : Predicate)                     (* line 110 *)
| k_wait_for                                         (* line 158 *)
| k_wait_until_pred (abs_time : Z) (pred : Predicate) (* line 181 *).

(** Program counters: the statement a thread executes next. *)
Inductive pc :=
| Idle                                   (* client code, no call made yet *)
| Done (r : result)                      (* client code, after a call *)
(* wait(lock, pred), lines 105-112 and 295-300 *)
| WP_test (pred : Predicate)             (* 108: while(!pred()) *)
(* wait_for(lock, rel_time, pred), line 166 *)
| WFP_now (rel_time : Z) (pred : Predicate)
(* wait_until(lock, abs_time, pred), lines 174-187 *)
| WU_test (abs_time : Z) (pred : Predicate)  (* 179: while (!pred()) *)
| WU_final (pred : Predicate)                (* 183: return pred() *)
(* wait_until(lock, abs_time), line 172, into wait_for, lines 155-158 *)
| WU_now (abs_time : Z) (k : cont)
(* xp::condition_variable_any::wait_impl, lines 69-98 *)
| W_guard (time : Z) (k : cont)          (* 72 *)
| W_inc (time : Z) (k : cont)            (* 73 *)
| W_unguard (time : Z) (k : cont)        (* 74 *)
| W_unlock (time : Z) (k : cont)         (* 75 *)
| W_block (time : Z) (k : cont)          (* 76 *)
| W_dec (ret : Z) (k : cont)             (* 78 *)
| W_setevent (ret : Z) (k : cont)        (* 79 *)
| W_relock (ret : Z) (k : cont)          (* 80, then 81-97 *)
(* xp::condition_variable_any::notify_all, lines 114-134 *)
| NA_guard                               (* 116 *)
| NA_check                               (* 117 *)
| NA_return                              (* 118 *)
| NA_release                             (* 120: reads mNumWaiters *)
| NA_release_n (n : Z)                   (* 120: ReleaseSemaphore *)
| NA_loop                                (* 121 *)
| NA_wait                                (* 123-125 *)
| NA_assert                              (* 127 *)
| NA_drain                               (* 133 *)
| NA_unguard                             (* 134 *)
(* xp::condition_variable_any::notify_one, lines 135-149 *)
| NO_guard                               (* 137 *)
| NO_load                                (* 138-140 *)
| NO_release (targetWaiters : Z)         (* 141 *)
| NO_loop (targetWaiters : Z)            (* 142 *)
| NO_wait (targetWaiters : Z)            (* 144-146 *)
| NO_assert (targetWaiters : Z)          (* 148 *)
| NO_unguard                             (* 140, 149 *)
| Terminating                            (* 125, 146: std::terminate() *)
| Aborting                               (* 127, 148: assert failed *)
(* vista::condition_variable::wait_impl, lines 240-261 *)
| V_release (time : Z) (k : cont)        (* 245-251, with the test of 248 *)
| V_sleep (time : Z) (k : cont)          (* 253: leaves the critical section *)
| V_parked (time : Z) (k : cont)         (* 253: asleep *)
| V_reenter (success : Z) (k : cont)     (* 253: re-enters; 257-260 *)
(* vista::condition_variable::notify_one, notify_all, lines 280-288 *)
| VN_one
| VN_all.

(** The operations on shared objects that the statements perform. *)
Inductive action :=
| A_local                      (* no shared object touched *)
| A_enter (needs_lock : bool)  (* a call is made *)
| A_lock                       (* lock.lock() *)
| A_unlock                     (* lock.unlock() *)
| A_write (d : Data)           (* the client writes its data *)
| A_pred (pred : Predicate)    (* pred() *)
| A_now                        (* Clock::now() *)
| A_guard_lock                 (* lock_guard<recursive_mutex>(mMutex) *)
| A_guard_unlock               (* its destructor *)
| A_inc                        (* mNumWaiters++ *)
| A_dec                        (* mNumWaiters-- *)
| A_load                       (* mNumWaiters.load() *)
| A_release (n : Z)            (* ReleaseSemaphore(mSemaphore, n, NULL) *)
| A_set_event                  (* SetEvent(mWakeEvent) *)
| A_wait_semaphore (time : Z)  (* WaitForSingleObject(mSemaphore, time) *)
| A_wait_event (time : Z)      (* WaitForSingleObject(mWakeEvent, time) *)
| A_owner_check                (* pmutex->mOwnerThread != GetCurrentThreadId() *)
| A_cv_sleep                   (* SleepConditionVariableCS: leave and sleep *)
| A_cv_block (time : Z)        (* SleepConditionVariableCS: asleep *)
| A_cv_reenter                 (* SleepConditionVariableCS: re-enter *)
| A_wake                       (* WakeConditionVariable *)
| A_wake_all                   (* WakeAllConditionVariable *)
| A_terminate                  (* std::terminate() *)
| A_abort                      (* abort() from assert *).

(** *** Control flow of one thread *)

(** What client code does between calls: it makes a call, locks or unlocks
    the lock it later waits with, or writes the data the lock guards. *)
Inductive client_op :=
| op_call (c : call)
| op_lock
| op_unlock
| op_write (d : Data).

Inductive input :=
| in_client (op : client_op)
| in_run.

Definition needs_lock (c : call) : bool :=
  match c with
  | call_notify_one | call_notify_all => false
  | _ => true
  end.

(** [wait_impl(lock, time)] of the engine in use. *)
Definition wait_impl (time : Z) (k : cont) : pc :=
  match engine with
  | XP => W_guard time k
  | Vista => V_release time k
  end.

(** Lines 150-160: [wait_for(lock, rel_time)]. *)
Definition wait_for (rel_time : Z) (k : cont) : pc :=
  wait_impl (wait_for_timeout (duration_cast_milliseconds tick_num tick_den rel_time)) k.

(** [wait_impl] hands [b] back to its caller. *)
Definition resume (k : cont) (b : bool) : pc :=
  match k with
  | k_wait => Done returned_wait
  | k_wait_pred pred => WP_test pred
  | k_wait_for => Done (returned_status (if b then no_timeout else timeout))
  | k_wait_until_pred abs_time pred =>
      if b then WU_test abs_time pred else WU_final pred
  end.

(** Lines 81-97. *)
Definition wait_impl_result (ret : Z) (k : cont) : pc :=
  if ret =? WAIT_OBJECT_0 then resume k true
  else if ret =? WAIT_TIMEOUT then resume k false
  else Done (thrown EPROTO).

Definition notify_one : pc :=
  match engine with XP => NO_guard | Vista => VN_one end.

Definition notify_all : pc :=
  match engine with XP => NA_guard | Vista => VN_all end.

(** Lines 101-104, 290-293: [wait(lock)]. *)
Definition wait (k : cont) : pc := wait_impl INFINITE k.

(** Lines 105-112, 295-300: [wait(lock, pred)] starts at the test of its
    loop. *)
Definition wait_pred (pred : Predicate) : pc := WP_test pred.

(** Lines 162-167, 314-322: [wait_for(lock, rel_time, pred)] starts by
    reading the clock, to which it adds [rel_time] in 64-bit arithmetic. *)
Definition wait_for_pred (rel_time : Z) (pred : Predicate) : pc :=
  WFP_now rel_time pred.

(** Lines 168-173, 323-328: [wait_until(lock, abs_time)] starts by reading
    the clock, which it subtracts from [abs_time] in 64-bit arithmetic. *)
Definition wait_until (abs_time : Z) (k : cont) : pc := WU_now abs_time k.

(** Lines 174-187, 329-342: [wait_until(lock, abs_time, pred)] starts at the
    test of its loop. *)
Definition wait_until_pred (abs_time : Z) (pred : Predicate) : pc :=
  WU_test abs_time pred.

(** The first statement of each call. *)
Definition enter (c : call) : pc :=
  match c with
  | call_wait => wait k_wait
  | call_wait_pred pred => wait_pred pred
  | call_wait_for rel_time => wait_for rel_time k_wait_for
  | call_wait_for_pred rel_time pred => wait_for_pred rel_time pred
  | call_wait_until abs_time => wait_until abs_time k_wait_for
  | call_wait_until_pred abs_time pred => wait_until_pred abs_time pred
  | call_notify_one => notify_one
  | call_notify_all => notify_all
  end.

Definition wait_failed (ret : Z) : bool :=
  (ret =? WAIT_FAILED) || (ret =? WAIT_ABANDONED).

Definition client (op : client_op) : action * (Z → pc) :=
  match op with
  | op_call c => (A_enter (needs_lock c), λ _, enter c)
  | op_lock => (A_lock, λ _, Idle)
  | op_unlock => (A_unlock, λ _, Idle)
  | op_write d => (A_write d, λ _, Idle)
  end.

(** The statement at a program counter: the action it performs and where the
    thread goes with the value the action yields. *)
Definition decode (p : pc) (i : input) : option (action * (Z → pc)) :=
  match p, i with
  | Idle, in_client op | Done _, in_client op => Some (client op)
  | Idle, in_run | Done _, in_run => None
  | _, in_client _ => None
  | WP_test pred, _ =>
      Some (A_pred pred, λ b,
        if b =? 0 then wait (k_wait_pred pred)
        else Done (returned_wait_pred pred))
  | WFP_now rel_time pred, _ =>
      Some (A_now, λ now, wait_until_pred (long_long (now + rel_time)) pred)
  | WU_test abs_time pred, _ =>
      Some (A_pred pred, λ b,
        if b =? 0 then wait_until abs_time (k_wait_until_pred abs_time pred)
        else Done (returned_pred_value true))
  | WU_final pred, _ =>
      Some (A_pred pred, λ b, Done (returned_pred_value (negb (b =? 0))))
  | WU_now abs_time k, _ =>
      Some (A_now, λ now, wait_for (long_long (abs_time - now)) k)
  | W_guard time k, _ => Some (A_guard_lock, λ _, W_inc time k)
  | W_inc time k, _ => Some (A_inc, λ _, W_unguard time k)
  | W_unguard time k, _ => Some (A_guard_unlock, λ _, W_unlock time k)
  | W_unlock time k, _ => Some (A_unlock, λ _, W_block time k)
  | W_block time k, _ => Some (A_wait_semaphore time, λ ret, W_dec ret k)
  | W_dec ret k, _ => Some (A_dec, λ _, W_setevent ret k)
  | W_setevent ret k, _ => Some (A_set_event, λ _, W_relock ret k)
  | W_relock ret k, _ => Some (A_lock, λ _, wait_impl_result ret k)
  | NA_guard, _ => Some (A_guard_lock, λ _, NA_check)
  | NA_check, _ => Some (A_load, λ n, if n <=? 0 then NA_return else NA_release)
  | NA_return, _ => Some (A_guard_unlock, λ _, Done returned_notify)
  | NA_release, _ => Some (A_load, λ n, NA_release_n n)
  | NA_release_n n, _ => Some (A_release n, λ _, NA_loop)
  | NA_loop, _ => Some (A_load, λ n, if 0 <? n then NA_wait else NA_assert)
  | NA_wait, _ =>
      Some (A_wait_event 1000, λ ret,
        if wait_failed ret then Terminating else NA_loop)
  | NA_assert, _ =>
      if NDEBUG then Some (A_local, λ _, NA_drain)
      else Some (A_load, λ n, if n =? 0 then NA_drain else Aborting)
  | NA_drain, _ =>
      Some (A_wait_semaphore 0, λ ret,
        if ret =? WAIT_OBJECT_0 then NA_drain else NA_unguard)
  | NA_unguard, _ => Some (A_guard_unlock, λ _, Done returned_notify)
  | NO_guard, _ => Some (A_guard_lock, λ _, NO_load)
  | NO_load, _ =>
      Some (A_load, λ n,
        let targetWaiters := int_of (n - 1) in
        if targetWaiters <=? -1 then NO_unguard else NO_release targetWaiters)
  | NO_release targetWaiters, _ => Some (A_release 1, λ _, NO_loop targetWaiters)
  | NO_loop targetWaiters, _ =>
      Some (A_load, λ n,
        if targetWaiters <? n then NO_wait targetWaiters
        else NO_assert targetWaiters)
  | NO_wait targetWaiters, _ =>
      Some (A_wait_event 1000, λ ret,
        if wait_failed ret then Terminating else NO_loop targetWaiters)
  | NO_assert targetWaiters, _ =>
      if NDEBUG then Some (A_local, λ _, NO_unguard)
      else Some (A_load, λ n, if n =? targetWaiters then NO_unguard else Aborting)
  | NO_unguard, _ => Some (A_guard_unlock, λ _, Done returned_notify)
  | Terminating, _ => Some (A_terminate, λ _, Terminating)
  | Aborting, _ => Some (A_abort, λ _, Aborting)
  | V_release time k, _ =>
      Some (A_owner_check, λ owner,
        if owner =? 0 then Done (thrown resource_deadlock_would_occur)
        else V_sleep time k)
  | V_sleep time k, _ => Some (A_cv_sleep, λ _, V_parked time k)
  | V_parked time k, _ => Some (A_cv_block time, λ success, V_reenter success k)
  | V_reenter success k, _ =>
      Some (A_cv_reenter, λ _, resume k (negb (success =? 0)))
  | VN_one, _ => Some (A_wake, λ _, Done returned_notify)
  | VN_all, _ => Some (A_wake_all, λ _, Done returned_notify)
  end.

(** *** The shared objects *)

Record shared := {
  mMutex : option (nat * nat);   (* line 46 *)
  mNumWaiters : Z;               (* line 47 *)
  mSemaphore : option Z;         (* line 48: the count behind the handle *)
  mWakeEvent : option bool;      (* line 49: signaled or not *)
  lock_owner : option nat;       (* the caller's lock *)
  data : Data;
  clock : Z;
  halted : option halt
}.

Definition set_mMutex (m : option (nat * nat)) (sh : shared) : shared :=
  {| mMutex := m; mNumWaiters := mNumWaiters sh; mSemaphore := mSemaphore sh;
     mWakeEvent := mWakeEvent sh; lock_owner := lock_owner sh; data := data sh;
     clock := clock sh; halted := halted sh |}.

Definition set_mNumWaiters (n : Z) (sh : shared) : shared :=
  {| mMutex := mMutex sh; mNumWaiters := n; mSemaphore := mSemaphore sh;
     mWakeEvent := mWakeEvent sh; lock_owner := lock_owner sh; data := data sh;
     clock := clock sh; halted := halted sh |}.

Definition set_mSemaphore (h : option Z) (sh : shared) : shared :=
  {| mMutex := mMutex sh; mNumWaiters := mNumWaiters sh; mSemaphore := h;
     mWakeEvent := mWakeEvent sh; lock_owner := lock_owner sh; data := data sh;
     clock := clock sh; halted := halted sh |}.

Definition set_mWakeEvent (h : option bool) (sh : shared) : shared :=
  {| mMutex := mMutex sh; mNumWaiters := mNumWaiters sh; mSemaphore := mSemaphore sh;
     mWakeEvent := h; lock_owner := lock_owner sh; data := data sh;
     clock := clock sh; halted := halted sh |}.

Definition set_lock_owner (l : option nat) (sh : shared) : shared :=
  {| mMutex := mMutex sh; mNumWaiters := mNumWaiters sh; mSemaphore := mSemaphore sh;
     mWakeEvent := mWakeEvent sh; lock_owner := l; data := data sh;
     clock := clock sh; halted := halted sh |}.

Definition set_data (d : Data) (sh : shared) : shared :=
  {| mMutex := mMutex sh; mNumWaiters := mNumWaiters sh; mSemaphore := mSemaphore sh;
     mWakeEvent := mWakeEvent sh; lock_owner := lock_owner sh; data := d;
     clock := clock sh; halted := halted sh |}.

Definition set_clock (c : Z) (sh : shared) : shared :=
  {| mMutex := mMutex sh; mNumWaiters := mNumWaiters sh; mSemaphore := mSemaphore sh;
     mWakeEvent := mWakeEvent sh; lock_owner := lock_owner sh; data := data sh;
     clock := c; halted := halted sh |}.

Definition set_halted (h : option halt) (sh : shared) : shared :=
  {| mMutex := mMutex sh; mNumWaiters := mNumWaiters sh; mSemaphore := mSemaphore sh;
     mWakeEvent := mWakeEvent sh; lock_owner := lock_owner sh; data := data sh;
     clock := clock sh; halted := h |}.

(** Lines 58-61: the constructor stores whatever [CreateSemaphore] and
    [CreateEvent] return.  [semaphore_created] and [event_created] tell
    whether the system could create the objects. *)
Definition condition_variable_any (semaphore_created event_created : bool)
    (d : Data) : shared :=
  {| mMutex := None;
     mNumWaiters := 0;
     mSemaphore := CreateSemaphore semaphore_created 0;
     mWakeEvent := CreateEvent event_created false;
     lock_owner := None; data := d; clock := 0; halted := None |}.

(** Thread [t] performs an action; [None] while it cannot proceed.  The
    second component is the value the action yields.

    Client code keeps to the preconditions of the header: it makes a waiting
    call only while it owns the lock it passes, and writes the guarded data
    only while it owns that lock.  The owner recorded for the caller's lock
    also stands for [mOwnerThread] of the mutex, which the test of line 248
    reads.  The native condition variable may wake a sleeper at any time (its
    interface allows spurious wake-ups), which covers every effect of
    [WakeConditionVariable] and [WakeAllConditionVariable] on sleepers. *)
Definition perform (t : nat) (a : action) (expired : bool) (sh : shared)
    : option (shared * Z) :=
  match a with
  | A_local | A_wake | A_wake_all => Some (sh, 0)
  | A_enter needs =>
      if needs && negb (owned_by t (lock_owner sh)) then None else Some (sh, 0)
  | A_lock | A_cv_reenter =>
      match lock_owner sh with
      | None => Some (set_lock_owner (Some t) sh, 0)
      | Some _ => None
      end
  | A_unlock | A_cv_sleep =>
      if owned_by t (lock_owner sh) then Some (set_lock_owner None sh, 0) else None
  | A_write d =>
      if owned_by t (lock_owner sh) then Some (set_data d sh, 0) else None
  | A_pred pred => Some (sh, Z.b2z (pred (data sh)))
  | A_now => Some (sh, clock sh)
  | A_guard_lock =>
      match recursive_lock t (mMutex sh) with
      | Some m => Some (set_mMutex m sh, 0)
      | None => None
      end
  | A_guard_unlock =>
      match recursive_unlock t (mMutex sh) with
      | Some m => Some (set_mMutex m sh, 0)
      | None => None
      end
  | A_inc => Some (set_mNumWaiters (int_of (mNumWaiters sh + 1)) sh, 0)
  | A_dec => Some (set_mNumWaiters (int_of (mNumWaiters sh - 1)) sh, 0)
  | A_load => Some (sh, mNumWaiters sh)
  | A_release n =>
      let '(h, ok) := ReleaseSemaphore (mSemaphore sh) n in
      Some (set_mSemaphore h sh, Z.b2z ok)
  | A_set_event => Some (set_mWakeEvent (SetEvent (mWakeEvent sh)) sh, 0)
  | A_wait_semaphore time =>
      match WaitForSingleObject semaphore_acquire (mSemaphore sh) time expired with
      | Some (h, ret) => Some (set_mSemaphore h sh, ret)
      | None => None
      end
  | A_wait_event time =>
      match WaitForSingleObject event_acquire (mWakeEvent sh) time expired with
      | Some (h, ret) => Some (set_mWakeEvent h sh, ret)
      | None => None
      end
  | A_owner_check => Some (sh, Z.b2z (owned_by t (lock_owner sh)))
  | A_cv_block time =>
      if expired then (if time =? INFINITE then None else Some (sh, 0))
      else Some (sh, 1)
  | A_terminate => Some (set_halted (Some Terminated) sh, 0)
  | A_abort => Some (set_halted (Some Aborted) sh, 0)
  end.

(** *** The interleaved machine *)

Record state := { objects : shared; threads : list pc }.

Inductive event :=
| Tick (dt : nat)                      (* time passes *)
| Client (t : nat) (op : client_op)    (* client code of thread [t] *)
| Run (t : nat)                        (* [t] executes its next statement *)
| Expire (t : nat)                     (* the same, its time-out elapsed *).

Definition exec (t : nat) (i : input) (expired : bool) (s : state) : option state :=
  match threads s !! t with
  | None => None
  | Some p =>
      match decode p i with
      | None => None
      | Some (a, k) =>
          match perform t a expired (objects s) with
          | None => None
          | Some (sh, r) =>
              Some {| objects := sh; threads := <[t := k r]> (threads s) |}
          end
      end
  end.

(** No thread runs once the process is dead. *)
Definition step (s : state) (e : event) : option state :=
  match halted (objects s) with
  | Some _ => None
  | None =>
      match e with
      | Tick dt =>
          Some {| objects := set_clock (clock (objects s) + Z.of_nat dt) (objects s);
                  threads := threads s |}
      | Client t op => exec t (in_client op) false s
      | Run t => exec t in_run false s
      | Expire t => exec t in_run true s
      end
  end.

Fixpoint run (sched : list event) (s : state) : option state :=
  match sched with
  | [] => Some s
  | e :: sched' =>
      match step s e with
      | Some s' => run sched' s'
      | None => None
      end
  end.

(** [n] threads in client code around a freshly constructed object. *)
Definition init (semaphore_created event_created : bool) (d : Data) (n : nat) : state :=
  {| objects := condition_variable_any semaphore_created event_created d;
     threads := replicate n Idle |}.

(** ** Regions of the code

    [parked]: between the increment of line 73 and the decrement of line 78.
    [in_guard]: inside a [lock_guard] on [mMutex].
    [holds_lock]: whether the statement runs with the caller's lock held
    ([None] where that is the client's business). *)

Definition parked (p : pc) : bool :=
  match p with
  | W_unguard _ _ | W_unlock _ _ | W_block _ _ | W_dec _ _ => true
  | _ => false
  end.

Definition in_guard (p : pc) : bool :=
  match p with
  | W_inc _ _ | W_unguard _ _
  | NA_check | NA_return | NA_release | NA_release_n _ | NA_loop | NA_wait
  | NA_assert | NA_drain | NA_unguard
  | NO_load | NO_release _ | NO_loop _ | NO_wait _ | NO_assert _ | NO_unguard
  | Terminating | Aborting => true
  | _ => false
  end.

Definition holds_lock (p : pc) : option bool :=
  match p with
  | Done returned_notify => None
  | Done _ => Some true
  | WP_test _ | WFP_now _ _ | WU_test _ _ | WU_final _ | WU_now _ _
  | W_guard _ _ | W_inc _ _ | W_unguard _ _ | W_unlock _ _
  | V_release _ _ | V_sleep _ _ => Some true
  | W_block _ _ | W_dec _ _ | W_setevent _ _ | W_relock _ _
  | V_parked _ _ | V_reenter _ _ => Some false
  | _ => None
  end.

(** Number of parked threads. *)
Fixpoint waiting (l : list pc) : Z :=
  match l with
  | [] => 0
  | p :: l' => Z.b2z (parked p) + waiting l'
  end.

(** Whether the acting thread holds the caller's lock where its code expects
    it to. *)
Definition lock_ok (t : nat) (sh : shared) (p : pc) : Prop :=
  match holds_lock p with
  | Some true => lock_owner sh = Some t
  | Some false => lock_owner sh ≠ Some t
  | None => True
  end.

(** The statements that can only be reached once the loop of line 121 has
    seen no waiter left, or the test of line 117 none at all. *)
Definition drained (p : pc) : bool :=
  match p with
  | NA_return | NA_assert | NA_drain | NA_unguard => true
  | _ => false
  end.

(** ** The invariant of the machine *)

Record Inv (s : state) : Prop := {
  inv_small : Z.of_nat (length (threads s)) < 2 ^ 31;
  inv_count : mNumWaiters (objects s) = waiting (threads s);
  inv_guard : ∀ t p, threads s !! t = Some p → in_guard p = true →
              mMutex (objects s) = Some (t, 1%nat);
  inv_owner : ∀ t d, mMutex (objects s) = Some (t, d) →
              ∃ p, threads s !! t = Some p ∧ in_guard p = true;
  inv_lock : ∀ t p, threads s !! t = Some p → lock_ok t (objects s) p;
  inv_semaphore : ∀ c, mSemaphore (objects s) = Some c → 0 ≤ c;
  inv_drained : ∀ t p, threads s !! t = Some p → drained p = true →
                mNumWaiters (objects s) = 0;
  inv_empty : ∀ t, threads s !! t = Some NA_unguard →
              mSemaphore (objects s) = None ∨ mSemaphore (objects s) = Some 0;
  inv_pred : ∀ t pred, threads s !! t = Some (Done (returned_wait_pred pred)) →
             pred (data (objects s)) = true
}.

(** ** Reachable states, traces and single steps *)

Definition reachable (sc ec : bool) (d : Data) (n : nat) (s : state) : Prop :=
  ∃ sched, run sched (init sc ec d n) = Some s.

(** The statements a thread executes from [p] on, as long as values for them
    are supplied: the actions in program order and the place reached. *)
Fixpoint trace (p : pc) (values : list Z) : list action * pc :=
  match values with
  | [] => ([], p)
  | r :: values' =>
      match decode p in_run with
      | Some (a, k) => let '(tr, q) := trace (k r) values' in (a :: tr, q)
      | None => ([], p)
      end
  end.

(** Statements of the notifying side. *)
Definition notifying (p : pc) : bool :=
  match p with
  | NA_guard | NA_check | NA_return | NA_release | NA_release_n _ | NA_loop
  | NA_wait | NA_assert | NA_drain | NA_unguard
  | NO_guard | NO_load | NO_release _ | NO_loop _ | NO_wait _ | NO_assert _
  | NO_unguard | Terminating | Aborting | VN_one | VN_all => true
  | _ => false
  end.

(** Thread [t] executes its next statement, which leaves it at [q] and the
    shared objects as [sh]. *)
Definition moves (s : state) (t : nat) (q : pc) (sh : shared) : Prop :=
  step s (Run t) = Some {| objects := sh; threads := <[t := q]> (threads s) |}.

(** ** Timed waits whose deadline has passed

    The deadline [abs_time] is not after the clock reading [c], and not so
    far before the reading [horizon] that the millisecond count of the
    difference would leave the 64-bit range. *)
Definition past (horizon c abs_time : Z) : Prop :=
  abs_time ≤ c
  ∧ - 2 ^ 63 ≤ (abs_time - horizon) * ratio_num tick_num tick_den.

(** The caller of [wait_impl] is a timed wait whose deadline has passed. *)
Definition overdue_cont (horizon c : Z) (k : cont) : Prop :=
  match k with
  | k_wait_for => True
  | k_wait_until_pred abs_time _ => past horizon c abs_time
  | _ => False
  end.

(** [p] is a statement of a timed wait whose deadline has passed at the
    clock reading [c], or the client code such a wait returned to. *)
Definition overdue (horizon c : Z) (p : pc) : Prop :=
  match p with
  | Done _ => True
  | WFP_now rel_time _ =>
      rel_time ≤ 0 ∧ horizon < 2 ^ 63 ∧ - 2 ^ 63 ≤ c + rel_time
      ∧ - 2 ^ 63 ≤ (c + rel_time - horizon) * ratio_num tick_num tick_den
  | WU_test abs_time _ => past horizon c abs_time
  | WU_final _ => True
  | WU_now abs_time k => past horizon c abs_time ∧ overdue_cont horizon c k
  | W_guard time k | W_inc time k | W_unguard time k | W_unlock time k
  | W_block time k | V_release time k | V_sleep time k | V_parked time k =>
      time = 0 ∧ overdue_cont horizon c k
  | W_dec _ k | W_setevent _ k | W_relock _ k | V_reenter _ k =>
      overdue_cont horizon c k
  | _ => False
  end.

(** [p] is a statement of [wait_for(lock, rel_time)] whose [wait_impl] was
    given the time-out [given], or the client code it returned to. *)
Definition in_wait_for (given : Z) (p : pc) : Prop :=
  match p with
  | Done _ => True
  | W_guard time k | W_inc time k | W_unguard time k | W_unlock time k
  | W_block time k | V_release time k | V_sleep time k | V_parked time k =>
      time = given ∧ k = k_wait_for
  | W_dec _ k | W_setevent _ k | W_relock _ k | V_reenter _ k => k = k_wait_for
  | _ => False
  end.

(** Events that are not client code of thread [t]. *)
Definition quiet (t : nat) (e : event) : Prop :=
  match e with
  | Client u _ => u ≠ t
  | _ => True
  end.

End Machine.

(** ** Concrete builds and schedules *)

(** The emulated engine with assertions and the same with [NDEBUG]; a
    millisecond tick and no client data. *)
Definition xp_debug : Config :=
  {| engine := XP; NDEBUG := false; tick_num := 1; tick_den := 1000; Data := unit |}.

Definition xp_ndebug : Config :=
  {| engine := XP; NDEBUG := true; tick_num := 1; tick_den := 1000; Data := unit |}.

(** The state a schedule leads to (the start state if it cannot run). *)
Definition state_after {cfg : Config} (sched : list event) (s : state) : state :=
  default s (run sched s).

(** Thread [t] locks, makes a waiting call and runs [wait_impl] up to the
    wait on the semaphore. *)
Definition park {cfg : Config} (t : nat) (c : call) : list event :=
  [Client t op_lock; Client t (op_call c); Run t; Run t; Run t; Run t].

(** Threads 0 and 1 park in [wait_for(lock, 50ms)]; thread 2 enters
    notify_one, reads the count 2 and is about to release one unit. *)
Definition two_parked_one_notifying {cfg : Config} : list event :=
  park 0 (call_wait_for 50) ++ park 1 (call_wait_for 50)
  ++ [Client 2 (op_call call_notify_one); Run 2; Run 2].

(** The unit is released; thread 0 takes it while the time-out of thread 1
    elapses; both decrement before the notifier reads the count again at
    line 142 and goes on to line 148. *)
Definition both_leave {cfg : Config} : list event :=
  [Run 2; Run 0; Expire 1; Run 0; Run 1; Run 2; Run 2].


(** Thread 0 parks in [wait(lock)] and leaves the wait on the semaphore up to
    the re-acquisition of its lock. *)
Definition wait_up_to_relock {cfg : Config} : list event :=
  park 0 call_wait ++ [Run 0; Run 0; Run 0].



(** The states the schedules above lead to. *)
Definition race_start : state :=
  state_after two_parked_one_notifying (init (cfg := xp_debug) true true tt 3).

Definition race_end : state :=
  state_after (two_parked_one_notifying ++ both_leave ++ [Run 2])
    (init (cfg := xp_debug) true true tt 3).

Definition race_end_ndebug : state :=
  state_after (two_parked_one_notifying ++ both_leave ++ [Run 2])
    (init (cfg := xp_ndebug) true true tt 3).

Definition no_semaphore : state :=
  state_after wait_up_to_relock (init (cfg := xp_debug) false true tt 1).










(** Thread 0 holds the lock, about to call [wait_for(lock, 0ms)]; the call
    made; and thread 0 at its wait while thread 1 has released a unit. *)
Definition before_poll : state :=
  state_after [Client 0 op_lock] (init (cfg := xp_debug) true true tt 2).




(** No semaphore could be created; thread 0 has been through wait(lock). *)
Definition thrown_to_caller : state :=
  state_after (wait_up_to_relock ++ [Run 0])
    (init (cfg := xp_debug) false true tt 1).

(** No event could be created; thread 0 is parked and thread 1, in
    notify_all, has reached the wait of line 123. *)
Definition no_event : state :=
  state_after
    (park 0 call_wait
     ++ [Client 1 (op_call call_notify_all); Run 1; Run 1; Run 1; Run 1; Run 1])
    (init (cfg := xp_debug) true false tt 2).


(** ** Further regions and invariants of the emulated engine *)

Section Regions.

Context {cfg : Config}.

(** Number of threads whose statement satisfies [f]. *)
Fixpoint tally (f : pc → bool) (l : list pc) : Z :=
  match l with
  | [] => 0
  | p :: l' => Z.b2z (f p) + tally f l'
  end.

(** Counted as a waiter and not yet back from the wait of line 76. *)
Definition pending (p : pc) : bool :=
  match p with
  | W_unguard _ _ | W_unlock _ _ | W_block _ _ => true
  | _ => false
  end.

(** Back from the wait of line 76, the decrement of line 78 still to come. *)
Definition leaving (p : pc) : bool :=
  match p with
  | W_dec _ _ => true
  | _ => false
  end.

(** [targetWaiters] of a thread past line 140 of notify_one. *)
Definition target_of (p : pc) : option Z :=
  match p with
  | NO_release g | NO_loop g | NO_wait g | NO_assert g => Some g
  | _ => None
  end.

(** In the loop of lines 142-147. *)
Definition in_notify_one_loop (p : pc) : bool :=
  match p with
  | NO_loop _ | NO_wait _ => true
  | _ => false
  end.

(** In the loop of lines 121-126. *)
Definition in_notify_all_loop (p : pc) : bool :=
  match p with
  | NA_loop | NA_wait => true
  | _ => false
  end.

(** Statements of the classes of namespace [xp] and of namespace [vista]. *)
Definition xp_statement (p : pc) : bool :=
  match p with
  | W_guard _ _ | W_inc _ _ | W_unguard _ _ | W_unlock _ _ | W_block _ _
  | W_dec _ _ | W_setevent _ _ | W_relock _ _
  | NA_guard | NA_check | NA_return | NA_release | NA_release_n _ | NA_loop
  | NA_wait | NA_assert | NA_drain | NA_unguard
  | NO_guard | NO_load | NO_release _ | NO_loop _ | NO_wait _ | NO_assert _
  | NO_unguard | Terminating | Aborting => true
  | _ => false
  end.

Definition vista_statement (p : pc) : bool :=
  match p with
  | V_release _ _ | V_sleep _ _ | V_parked _ _ | V_reenter _ _
  | VN_one | VN_all => true
  | _ => false
  end.

(** The status a thread carries from the wait of line 76 is one of the two
    that lines 81-84 turn into a return value, and the thread does not hold
    the exception of line 97. *)
Definition status_ok (p : pc) : Prop :=
  match p with
  | W_dec ret _ | W_setevent ret _ | W_relock ret _ =>
      ret = WAIT_OBJECT_0 ∨ ret = WAIT_TIMEOUT
  | Done (thrown EPROTO) => False
  | _ => True
  end.

(** What notify_one and notify_all can rely on while they wait for waiters
    to leave. *)
Record Inv_notify (s : state) : Prop := {
  inv_target : ∀ t p g, threads s !! t = Some p → target_of p = Some g →
               0 ≤ g ∧ mNumWaiters (objects s) ≤ g + 1;
  inv_reached : ∀ t g, threads s !! t = Some (NO_assert g) →
                mNumWaiters (objects s) ≤ g;
  inv_unit : ∀ t p g, threads s !! t = Some p → in_notify_one_loop p = true →
             target_of p = Some g → g < mNumWaiters (objects s) →
             mSemaphore (objects s) = None
             ∨ (∃ c, mSemaphore (objects s) = Some c ∧ 1 ≤ c)
             ∨ ∃ u q, threads s !! u = Some q ∧ leaving q = true;
  inv_released : ∀ t n, threads s !! t = Some (NA_release_n n) →
                 tally pending (threads s) ≤ n
                 ∧ n ≤ Z.of_nat (length (threads s));
  inv_units : ∀ t p, threads s !! t = Some p → in_notify_all_loop p = true →
              mSemaphore (objects s) = None
              ∨ ∃ c, mSemaphore (objects s) = Some c
                     ∧ tally pending (threads s) ≤ c
}.

(** Where the failures of the engines can come from. *)
Record Inv_failures (s : state) : Prop := {
  inv_status : mSemaphore (objects s) ≠ None →
               ∀ t p, threads s !! t = Some p → status_ok p;
  inv_alive : mWakeEvent (objects s) ≠ None →
              halted (objects s) ≠ Some Terminated
              ∧ ∀ t, threads s !! t ≠ Some Terminating;
  inv_asserting : NDEBUG = true →
                  halted (objects s) ≠ Some Aborted
                  ∧ ∀ t, threads s !! t ≠ Some Aborting;
  inv_owner_checked : ∀ t, threads s !! t
                           ≠ Some (Done (thrown resource_deadlock_would_occur));
  inv_xp : engine = XP →
           ∀ t p, threads s !! t = Some p → vista_statement p = false;
  inv_vista : engine = Vista →
              halted (objects s) = None
              ∧ (∀ t p, threads s !! t = Some p → xp_statement p = false)
              ∧ ∀ t, threads s !! t ≠ Some (Done (thrown EPROTO))
}.

End Regions.


(** ** The any-lock adapter, vista::condition_variable_any (lines 345-459)

    The generic [wait_impl] of lines 353-361 lets the native condition
    variable be awaited under a lock of any type [L]: it takes
    [internal_mutex_], releases the caller's lock, sleeps on the native
    condition variable with [internal_mutex_] as its critical section, and
    takes the caller's lock again before the destructor of [internal_lock]
    gives [internal_mutex_] back.  As before a sleeper may wake at any time,
    which covers notify_one and notify_all (lines 405-406, inherited). *)

Inductive any_pc :=
| G_client                          (* client code, no call made yet *)
| G_returned (success : bool)       (* client code, wait_impl returned *)
| G_thrown                          (* client code, line 249 threw *)
| G_internal (time : Z)             (* 356: unique_lock internal_lock *)
| G_unlock (time : Z)               (* 357: lock.unlock() *)
| G_sleep (time : Z)                (* 358: base::wait_impl, lines 245-253 *)
| G_asleep (time : Z)               (* 358: in SleepConditionVariableCS *)
| G_reenter (success : bool)        (* 358: re-entering, lines 253-260 *)
| G_relock (success : bool)         (* 359: lock.lock() *)
| G_unguard (success : bool)        (* 360: ~unique_lock of internal_lock *).

Record any_state := {
  caller_lock : option nat;         (* owner of the caller's lock *)
  internal_mutex_ : option nat;     (* line 351 *)
  any_threads : list any_pc
}.

Inductive any_event :=
| G_lock (t : nat)                  (* client code locks its lock *)
| G_unlock_client (t : nat)         (* client code unlocks it *)
| G_wait (t : nat) (time : Z)       (* a wait call reaches wait_impl *)
| G_run (t : nat)                   (* [t] executes its next statement *)
| G_expire (t : nat)                (* the same, its time-out elapsed *).

Definition any_in_client (p : any_pc) : bool :=
  match p with
  | G_client | G_returned _ | G_thrown => true
  | _ => false
  end.

(** One statement of thread [t] at [p]: the two locks and the statement it
    goes to; [None] while it cannot proceed. *)
Definition any_statement (t : nat) (expired : bool) (p : any_pc)
    (lock internal : option nat) : option (option nat * option nat * any_pc) :=
  match p with
  | G_client | G_returned _ | G_thrown => None
  | G_internal time =>
      match internal with
      | None => Some (lock, Some t, G_unlock time)
      | Some _ => None
      end
  | G_unlock time =>
      if owned_by t lock then Some (None, internal, G_sleep time) else None
  | G_sleep time =>
      if owned_by t internal then Some (lock, None, G_asleep time)
      else Some (lock, internal, G_thrown)
  | G_asleep time =>
      if expired then
        (if time =? INFINITE then None else Some (lock, internal, G_reenter false))
      else Some (lock, internal, G_reenter true)
  | G_reenter success =>
      match internal with
      | None => Some (lock, Some t, G_relock success)
      | Some _ => None
      end
  | G_relock success =>
      match lock with
      | None => Some (Some t, internal, G_unguard success)
      | Some _ => None
      end
  | G_unguard success =>
      if owned_by t internal then Some (lock, None, G_returned success)
      else None
  end.

Definition any_advance (t : nat) (expired : bool) (s : any_state)
    : option any_state :=
  match any_threads s !! t with
  | None => None
  | Some p =>
      match any_statement t expired p (caller_lock s) (internal_mutex_ s) with
      | None => None
      | Some (l, m, q) =>
          Some {| caller_lock := l; internal_mutex_ := m;
                  any_threads := <[t := q]> (any_threads s) |}
      end
  end.

(** Client code locks and unlocks its own lock and calls wait only while it
    owns it. *)
Definition any_step (s : any_state) (e : any_event) : option any_state :=
  match e with
  | G_run t => any_advance t false s
  | G_expire t => any_advance t true s
  | G_lock t =>
      match any_threads s !! t, caller_lock s with
      | Some p, None =>
          if any_in_client p
          then Some {| caller_lock := Some t; internal_mutex_ := internal_mutex_ s;
                       any_threads := <[t := G_client]> (any_threads s) |}
          else None
      | _, _ => None
      end
  | G_unlock_client t =>
      match any_threads s !! t with
      | Some p =>
          if any_in_client p && owned_by t (caller_lock s)
          then Some {| caller_lock := None; internal_mutex_ := internal_mutex_ s;
                       any_threads := <[t := G_client]> (any_threads s) |}
          else None
      | None => None
      end
  | G_wait t time =>
      match any_threads s !! t with
      | Some p =>
          if any_in_client p && owned_by t (caller_lock s)
          then Some {| caller_lock := caller_lock s;
                       internal_mutex_ := internal_mutex_ s;
                       any_threads := <[t := G_internal time]> (any_threads s) |}
          else None
      | None => None
      end
  end.

Fixpoint any_run (sched : list any_event) (s : any_state) : option any_state :=
  match sched with
  | [] => Some s
  | e :: sched' =>
      match any_step s e with
      | Some s' => any_run sched' s'
      | None => None
      end
  end.

Definition any_init (n : nat) : any_state :=
  {| caller_lock := None; internal_mutex_ := None;
     any_threads := replicate n G_client |}.

(** Whether the statement runs with the caller's lock held, and whether with
    [internal_mutex_] held. *)
Definition any_holds_lock (p : any_pc) : option bool :=
  match p with
  | G_returned _ | G_internal _ | G_unlock _ | G_unguard _ => Some true
  | G_thrown | G_sleep _ | G_asleep _ | G_reenter _ | G_relock _ => Some false
  | G_client => None
  end.

Definition any_holds_internal (p : any_pc) : bool :=
  match p with
  | G_unlock _ | G_sleep _ | G_relock _ | G_unguard _ => true
  | _ => false
  end.

Record any_inv (s : any_state) : Prop := {
  any_inv_lock : ∀ t p, any_threads s !! t = Some p →
                 match any_holds_lock p with
                 | Some true => caller_lock s = Some t
                 | Some false => caller_lock s ≠ Some t
                 | None => True
                 end;
  any_inv_internal : ∀ t p, any_threads s !! t = Some p →
                     (any_holds_internal p = true ↔ internal_mutex_ s = Some t);
  any_inv_owner : ∀ t, internal_mutex_ s = Some t →
                  is_Some (any_threads s !! t);
  any_inv_checked : ∀ t, any_threads s !! t ≠ Some G_thrown
}.

(** Thread 2 waits and sleeps.  Thread 0 waits and is woken; thread 1 has
    meanwhile taken the caller's lock; thread 0 re-enters [internal_mutex_]
    and goes for the caller's lock, and thread 1 calls wait. *)
Definition any_embrace : list any_event :=
  [G_lock 2; G_wait 2 INFINITE; G_run 2; G_run 2; G_run 2;
   G_lock 0; G_wait 0 INFINITE; G_run 0; G_run 0; G_run 0;
   G_lock 1; G_run 0; G_run 0; G_wait 1 INFINITE].

Definition any_embraced : any_state :=
  default (any_init 3) (any_run any_embrace (any_init 3)).

(** Thread 0 calls wait with a time-out, sleeps, times out and returns. *)
Definition any_time_out : list any_event :=
  [G_lock 0; G_wait 0 50; G_run 0; G_run 0; G_run 0; G_expire 0;
   G_run 0; G_run 0; G_run 0].

Definition any_timed_out : any_state :=
  default (any_init 1) (any_run any_time_out (any_init 1)).

(** ** Further runs of the two engines *)

(** The notifier of [two_parked_one_notifying] has released its unit and is
    at the test of line 142. *)
Definition one_released : state :=
  state_after (two_parked_one_notifying ++ [Run 2])
    (init (cfg := xp_debug) true true tt 3).

(** Thread 0 is parked in wait(lock); thread 1, in notify_all, has released
    the units and is at the test of line 121. *)
Definition release_all : list (event (cfg := xp_debug)) :=
  park 0 call_wait
  ++ [Client 1 (op_call call_notify_all); Run 1; Run 1; Run 1; Run 1].

Definition all_released : state :=
  state_after release_all (init (cfg := xp_debug) true true tt 2).

(** The same, thread 0 having left and thread 1 being at line 127. *)
Definition up_to_assert : list (event (cfg := xp_debug)) :=
  release_all ++ [Run 1; Run 0; Run 0; Run 0; Run 1; Run 1].

Definition at_assert : state :=
  state_after up_to_assert (init (cfg := xp_debug) true true tt 2).

(** The run of [poll_meets_notify] one statement before its end. *)
Definition poll_up_to_relock : list (event (cfg := xp_debug)) :=
  park 0 (call_wait_for 0)
  ++ [Client 1 (op_call call_notify_one); Run 1; Run 1; Run 1]
  ++ [Run 0; Run 0; Run 0].

Definition poll_relocking : state :=
  state_after poll_up_to_relock (init (cfg := xp_debug) true true tt 2).

Definition poll_returned : state := state_after [Run 0] poll_relocking.

(** Thread 0, holding the lock, calls wait_until with the deadline 0 and
    runs up to its wait; the clock has moved on meanwhile. *)
Definition deadline_passed : state :=
  state_after [Client 0 (op_call (call_wait_until 0))] before_poll.

Definition up_to_wait : list (event (cfg := xp_debug)) :=
  [Run 0; Tick 5; Run 0; Run 0; Run 0; Run 0].

Definition at_late_wait : state := state_after up_to_wait deadline_passed.

(** One thread, nothing called yet. *)
Definition fresh : state := init (cfg := xp_debug) true true tt 1.

(** No semaphore could be created; thread 0, in wait(lock), is back from
    its wait and about to signal the drain event. *)
Definition signalling : state :=
  state_after (park 0 call_wait ++ [Run 0; Run 0])
    (init (cfg := xp_debug) false true tt 1).

(** Thread 0, holding the lock, calls wait_for with 0xFFFFFFFF ticks of a
    millisecond and runs up to its wait. *)
Definition long_wait_called : state :=
  state_after [Client 0 (op_call (call_wait_for 4294967295))] before_poll.

Definition up_to_block {cfg : Config} : list event :=
  [Run 0; Run 0; Run 0; Run 0].

Definition at_long_wait : state := state_after up_to_block long_wait_called.

(** The emulated engine with a clock that ticks in microseconds, and with
    one that ticks in seconds. *)
Definition xp_micro : Config :=
  {| engine := XP; NDEBUG := false; tick_num := 1; tick_den := 1000000;
     Data := unit |}.

Definition xp_seconds : Config :=
  {| engine := XP; NDEBUG := false; tick_num := 1; tick_den := 1;
     Data := unit |}.

(** Thread 0, holding the lock, calls wait_for with 2500 microseconds and
    runs up to its wait. *)
Definition before_micro : state :=
  state_after [Client 0 op_lock] (init (cfg := xp_micro) true true tt 1).

Definition micro_called : state :=
  state_after [Client 0 (op_call (call_wait_for 2500))] before_micro.

Definition at_micro_wait : state := state_after up_to_block micro_called.

(** Thread 0, holding the lock, calls wait_for with 9223372036854776
    seconds and runs up to its wait. *)
Definition before_seconds : state :=
  state_after [Client 0 op_lock] (init (cfg := xp_seconds) true true tt 1).

Definition seconds_called : state :=
  state_after [Client 0 (op_call (call_wait_for 9223372036854776))]
    before_seconds.

Definition at_seconds_wait : state := state_after up_to_block seconds_called.


(** ** Proof automation

    Case analysis on the statement a thread is at, on the action it
    performs, and on the branch its result selects. *)

Ltac decode_cases H :=
  match type of H with
  | decode ?p ?i = Some _ =>
      destruct p; destruct i; simpl in H; try discriminate H;
      repeat match goal with
      | op : client_op |- _ => destruct op
      | c : call |- _ => destruct c
      end;
      unfold client in H; simpl in H;
      try match type of H with
          | (if ?b then _ else _) = _ => destruct b eqn:?
          end;
      simplify_eq
  end.

Ltac perform_cases H :=
  simpl in H; unfold ReleaseSemaphore, WaitForSingleObject in H;
  repeat case_match; simplify_eq.

Ltac bool_arith :=
  repeat match goal with
  | H : (_ <? _) = true |- _ => apply Z.ltb_lt in H
  | H : (_ <? _) = false |- _ => apply Z.ltb_ge in H
  | H : (_ <=? _) = true |- _ => apply Z.leb_le in H
  | H : (_ <=? _) = false |- _ => apply Z.leb_gt in H
  | H : (_ =? _) = true |- _ => apply Z.eqb_eq in H
  | H : (_ =? _) = false |- _ => apply Z.eqb_neq in H
  end.

Ltac flow_cases :=
  unfold enter, wait, wait_pred, wait_for_pred, wait_until, wait_until_pred,
    wait_for, wait_impl, notify_one, notify_all, wait_impl_result, resume in *;
  simpl; repeat case_match; simpl.

Section Correctness.

Context {cfg : Config}.

(** ** Counting parked threads *)

Lemma waiting_insert (l : list pc) t p q :
  l !! t = Some p →
  waiting (<[t := q]> l) = waiting l - Z.b2z (parked p) + Z.b2z (parked q).
Proof.
  revert t. induction l as [|x l IH]; intros [|t] H; simpl in *; try discriminate.
  - injection H as ->. lia.
  - rewrite (IH t H). lia.
Qed.

Lemma waiting_bounds (l : list pc) : 0 ≤ waiting l ≤ Z.of_nat (length l).
Proof.
  induction l as [|x l IH]; simpl; [lia|].
  destruct (parked x); simpl; lia.
Qed.

Lemma waiting_parked (l : list pc) t p :
  l !! t = Some p → parked p = true → 1 ≤ waiting l.
Proof.
  revert t. induction l as [|x l IH]; intros [|t] H Hp; simpl in *; try discriminate.
  - injection H as ->. rewrite Hp. pose proof (waiting_bounds l). simpl. lia.
  - pose proof (IH t H Hp). destruct (parked x); simpl; lia.
Qed.

Lemma waiting_room (l : list pc) t p :
  l !! t = Some p → parked p = false → waiting l + 1 ≤ Z.of_nat (length l).
Proof.
  intros H Hp.
  pose proof (waiting_insert l t p (W_dec 0 k_wait) H) as E.
  pose proof (waiting_bounds (<[t := W_dec 0 k_wait]> l)) as B.
  rewrite length_insert in B. rewrite Hp in E. simpl in E. lia.
Qed.

Lemma int_of_small z : - 2 ^ 31 ≤ z < 2 ^ 31 → int_of z = z.
Proof.
  intros H. unfold int_of. rewrite Z.mod_small; lia.
Qed.

(** ** What one statement does to each shared object *)

Lemma owned_by_true t l : owned_by t l = true → l = Some t.
Proof.
  destruct l as [o|]; simpl; [|discriminate].
  intros H. apply Nat.eqb_eq in H. by subst.
Qed.

Lemma owned_by_false t l : owned_by t l = false → l ≠ Some t.
Proof.
  intros H ->. simpl in H. by rewrite Nat.eqb_refl in H.
Qed.

(** The counter moves only at lines 73 and 78. *)
Lemma waiters_effect p i a k t e sh sh' r :
  decode p i = Some (a, k) →
  perform t a e sh = Some (sh', r) →
  (parked (k r) = parked p ∧ mNumWaiters sh' = mNumWaiters sh)
  ∨ (parked p = false ∧ parked (k r) = true ∧ in_guard p = true
     ∧ mNumWaiters sh' = int_of (mNumWaiters sh + 1))
  ∨ (parked p = true ∧ parked (k r) = false
     ∧ mNumWaiters sh' = int_of (mNumWaiters sh - 1)).
Proof.
  intros Hd Hp. decode_cases Hd; perform_cases Hp; flow_cases; auto 10.
Qed.

(** [mMutex] moves only where a [lock_guard] is built or destroyed. *)
Lemma guard_effect p i a k t e sh sh' r :
  decode p i = Some (a, k) →
  perform t a e sh = Some (sh', r) →
  (in_guard (k r) = in_guard p ∧ mMutex sh' = mMutex sh)
  ∨ (in_guard p = false ∧ in_guard (k r) = true
     ∧ recursive_lock t (mMutex sh) = Some (mMutex sh'))
  ∨ (in_guard p = true ∧ in_guard (k r) = false
     ∧ recursive_unlock t (mMutex sh) = Some (mMutex sh')).
Proof.
  intros Hd Hp. decode_cases Hd; perform_cases Hp; flow_cases; auto 10.
Qed.

(** The semaphore count goes down by one unit at a time and goes up only
    under the guard. *)
Lemma semaphore_effect p i a k t e sh sh' r :
  decode p i = Some (a, k) →
  perform t a e sh = Some (sh', r) →
  mSemaphore sh' = mSemaphore sh
  ∨ (∃ c, mSemaphore sh = Some c ∧ 0 < c ∧ mSemaphore sh' = Some (c - 1))
  ∨ (in_guard p = true
     ∧ ∃ c n, mSemaphore sh = Some c ∧ 0 < n ∧ mSemaphore sh' = Some (c + n)).
Proof.
  intros Hd Hp. decode_cases Hd; perform_cases Hp; flow_cases; auto;
    unfold semaphore_acquire in *; repeat case_match; simplify_eq;
    first
      [ right; left; eexists; split; [done|]; split; [lia|done]
      | right; right; split; [done|]; do 2 eexists; split; [done|];
        split; [|done]; lia ].
Qed.

(** The caller's lock changes hands only through the acting thread. *)
Lemma lock_owner_effect t a e sh sh' r :
  perform t a e sh = Some (sh', r) →
  lock_owner sh' = lock_owner sh
  ∨ (lock_owner sh = None ∧ lock_owner sh' = Some t)
  ∨ (lock_owner sh = Some t ∧ lock_owner sh' = None).
Proof.
  intros Hp. destruct a; perform_cases Hp; simpl; auto;
    right; right; split; auto using owned_by_true.
Qed.

(** The data is written only by the owner of the lock. *)
Lemma data_effect t a e sh sh' r :
  perform t a e sh = Some (sh', r) →
  data sh' = data sh ∨ lock_owner sh = Some t.
Proof.
  intros Hp. destruct a; perform_cases Hp; simpl; auto using owned_by_true.
Qed.

Lemma lock_effect p i a k t e sh sh' r :
  decode p i = Some (a, k) →
  perform t a e sh = Some (sh', r) →
  lock_ok t sh p → lock_ok t sh' (k r).
Proof.
  unfold lock_ok.
  intros Hd Hp. decode_cases Hd; perform_cases Hp; flow_cases; intros Hl;
    repeat match goal with
    | H : owned_by _ _ = true |- _ => apply owned_by_true in H
    | H : owned_by _ _ = false |- _ => apply owned_by_false in H
    | H : negb _ = false |- _ => apply negb_false_iff in H
    | H : (Z.b2z (owned_by ?t ?l) =? 0) = true |- _ =>
        destruct (owned_by t l) eqn:?; simpl in H; [discriminate H|]
    end; try done; try congruence.
Qed.

Lemma drained_in_guard p : drained p = true → in_guard p = true.
Proof. by destruct p. Qed.

Lemma drained_effect p i a k t e sh sh' r :
  decode p i = Some (a, k) →
  perform t a e sh = Some (sh', r) →
  drained (k r) = true →
  mNumWaiters sh' = mNumWaiters sh ∧ (drained p = true ∨ mNumWaiters sh ≤ 0).
Proof.
  intros Hd Hp. decode_cases Hd; perform_cases Hp; flow_cases;
    intros; simplify_eq; split; auto; right; lia.
Qed.

(** Line 134 is reached only from the poll of line 133 finding no unit. *)
Lemma unguard_effect p i a k t e sh sh' r :
  decode p i = Some (a, k) →
  perform t a e sh = Some (sh', r) →
  k r = NA_unguard →
  p = NA_drain
  ∧ (mSemaphore sh' = None ∨ ∃ c, mSemaphore sh' = Some c ∧ c ≤ 0).
Proof.
  intros Hd Hp. decode_cases Hd; perform_cases Hp; flow_cases;
    intros; simplify_eq; split; auto;
    unfold semaphore_acquire in *; repeat case_match; simplify_eq.
  all: right; eexists; split; [done|]; bool_arith; lia.
Qed.

(** [wait(lock, pred)] returns only from the test of line 108. *)
Lemma wait_pred_effect p i a k t e sh sh' r pred :
  decode p i = Some (a, k) →
  perform t a e sh = Some (sh', r) →
  k r = Done (returned_wait_pred pred) →
  p = WP_test pred ∧ pred (data sh) = true ∧ data sh' = data sh.
Proof.
  intros Hd Hp. decode_cases Hd; perform_cases Hp; flow_cases;
    intros; simplify_eq.
  all: repeat split; bool_arith;
    match goal with |- ?f ?d = true => by destruct (f d) end.
Qed.

(** ** The invariant is kept *)

Lemma exec_inversion t i e s s' :
  exec t i e s = Some s' →
  ∃ p a k r,
    threads s !! t = Some p ∧ decode p i = Some (a, k)
    ∧ perform t a e (objects s) = Some (objects s', r)
    ∧ threads s' = <[t := k r]> (threads s).
Proof.
  unfold exec. intros H.
  destruct (threads s !! t) as [p|] eqn:Ht; [|discriminate].
  destruct (decode p i) as [[a k]|] eqn:Hd; [|discriminate].
  destruct (perform t a e (objects s)) as [[sh r]|] eqn:Hp; [|discriminate].
  injection H as <-. by exists p, a, k, r.
Qed.

Lemma lookup_after (l : list pc) t u q p :
  <[t := q]> l !! u = Some p →
  (u = t ∧ p = q ∧ is_Some (l !! t)) ∨ (u ≠ t ∧ l !! u = Some p).
Proof.
  intros H. destruct (decide (u = t)) as [->|Hne].
  - left. destruct (l !! t) as [x|] eqn:Hl.
    + apply lookup_lt_Some in Hl as Hlt.
      rewrite list_lookup_insert_eq in H by done. by simplify_eq.
    + apply lookup_ge_None in Hl.
      rewrite list_insert_ge in H by done.
      apply lookup_lt_Some in H. lia.
  - right. split; [done|]. by rewrite list_lookup_insert_ne in H.
Qed.

Lemma recursive_lock_free t m m' :
  recursive_lock t m = Some m' →
  (∀ d, m ≠ Some (t, d)) →
  m = None ∧ m' = Some (t, 1%nat).
Proof.
  destruct m as [[o d]|]; simpl.
  - destruct (Nat.eqb_spec o t) as [->|]; [|discriminate].
    intros _ H. by destruct (H d).
  - intros H _. by simplify_eq.
Qed.

Lemma recursive_unlock_owner t m' :
  recursive_unlock t (Some (t, 1%nat)) = Some m' → m' = None.
Proof. simpl. rewrite Nat.eqb_refl. congruence. Qed.

Lemma recursive_lock_other t u d m' :
  u ≠ t → recursive_lock t (Some (u, d)) = Some m' → False.
Proof.
  simpl. intros Hne. by destruct (Nat.eqb_spec u t).
Qed.

(** Every statement of every thread preserves the invariant. *)
Lemma exec_inv t i e s s' : Inv s → exec t i e s = Some s' → Inv s'.
Proof.
  intros [Ismall Icount Iguard Iowner Ilock Isem Idrained Iempty Ipred] H.
  apply exec_inversion in H as (p & a & k & r & Ht & Hd & Hp & Hth).
  pose proof (waiters_effect _ _ _ _ _ _ _ _ _ Hd Hp) as W.
  pose proof (guard_effect _ _ _ _ _ _ _ _ _ Hd Hp) as G.
  pose proof (semaphore_effect _ _ _ _ _ _ _ _ _ Hd Hp) as S.
  pose proof (lock_owner_effect _ _ _ _ _ _ Hp) as L.
  pose proof (data_effect _ _ _ _ _ _ Hp) as D.
  pose proof (waiting_bounds (threads s)) as B.
  assert (Hfree : in_guard p = false → ∀ d, mMutex (objects s) ≠ Some (t, d)).
  { intros Hp' d Hm. destruct (Iowner _ _ Hm) as (q & Hq & Hg). congruence. }
  assert (Isem' : ∀ c, mSemaphore (objects s') = Some c → 0 ≤ c).
  { intros c Hc. destruct S as [S|[(c0 & S1 & S2 & S3)|(_ & c0 & n & S1 & S2 & S3)]].
    - apply Isem. congruence.
    - simplify_eq. lia.
    - pose proof (Isem _ S1). simplify_eq. lia. }
  constructor; rewrite ?Hth.
  - by rewrite length_insert.
  - rewrite (waiting_insert _ _ _ _ Ht).
    destruct W as [[E1 E2]|[(E1 & E2 & _ & E3)|(E1 & E2 & E3)]];
      rewrite E3 || rewrite E2; rewrite ?E1, ?E2, Icount; simpl; try lia.
    + pose proof (waiting_room _ _ _ Ht E1). rewrite int_of_small; lia.
    + pose proof (waiting_parked _ _ _ Ht E1). rewrite int_of_small; lia.
  - intros u q Hu Hq. apply lookup_after in Hu as [(-> & -> & _)|(Hne & Hu)].
    + destruct G as [[E1 E2]|[(E1 & E2 & E3)|(E1 & E2 & E3)]].
      * rewrite E2. apply (Iguard _ _ Ht). congruence.
      * apply recursive_lock_free in E3 as [_ E3]; auto.
      * congruence.
    + pose proof (Iguard _ _ Hu Hq) as Hm.
      destruct G as [[E1 E2]|[(E1 & E2 & E3)|(E1 & E2 & E3)]].
      * congruence.
      * rewrite Hm in E3. by destruct (recursive_lock_other _ _ _ _ Hne E3).
      * pose proof (Iguard _ _ Ht E1). congruence.
  - intros u d Hm.
    assert (Hlt : (t < length (threads s))%nat) by by eapply lookup_lt_Some.
    destruct G as [[E1 E2]|[(E1 & E2 & E3)|(E1 & E2 & E3)]].
    + rewrite E2 in Hm. destruct (Iowner _ _ Hm) as (q & Hq & Hg).
      destruct (decide (u = t)) as [->|Hne].
      * exists (k r). rewrite list_lookup_insert_eq by done.
        split; [done|]. congruence.
      * exists q. by rewrite list_lookup_insert_ne.
    + apply recursive_lock_free in E3 as [_ E3]; auto.
      rewrite E3 in Hm. simplify_eq.
      exists (k r). by rewrite list_lookup_insert_eq.
    + rewrite (Iguard _ _ Ht E1) in E3.
      apply recursive_unlock_owner in E3. congruence.
  - intros u q Hu. apply lookup_after in Hu as [(-> & -> & _)|(Hne & Hu)].
    + eapply lock_effect; eauto.
    + pose proof (Ilock _ _ Hu) as Hq. unfold lock_ok in *.
      destruct (holds_lock q) as [[]|]; [| |done];
        destruct L as [L|[[L1 L2]|[L1 L2]]]; congruence.
  - done.
  - intros u q Hu Hq. apply lookup_after in Hu as [(-> & -> & _)|(Hne & Hu)].
    + destruct (drained_effect _ _ _ _ _ _ _ _ _ Hd Hp Hq) as [E [Hd'|Hle]].
      * rewrite E. by apply (Idrained _ _ Ht).
      * lia.
    + pose proof (Idrained _ _ Hu Hq) as Hz.
      destruct W as [[E1 E2]|[(E1 & E2 & Eg & E3)|(E1 & E2 & E3)]].
      * congruence.
      * pose proof (Iguard _ _ Ht Eg).
        pose proof (Iguard _ _ Hu (drained_in_guard _ Hq)). congruence.
      * pose proof (waiting_parked _ _ _ Ht E1). lia.
  - intros u Hu. apply lookup_after in Hu as [(-> & Hk & _)|(Hne & Hu)].
    + symmetry in Hk.
      destruct (unguard_effect _ _ _ _ _ _ _ _ _ Hd Hp Hk) as [_ [E|(c & E & Hc)]].
      * by left.
      * right. pose proof (Isem' _ E). rewrite E. f_equal. lia.
    + destruct S as [S|[(c0 & S1 & S2 & S3)|(Eg & c0 & n & S1 & S2 & S3)]].
      * rewrite S. by apply (Iempty u).
      * destruct (Iempty _ Hu) as [E|E]; rewrite E in S1; simplify_eq; lia.
      * pose proof (Iguard _ _ Ht Eg).
        pose proof (Iguard _ _ Hu eq_refl). congruence.
  - intros u pred Hu. apply lookup_after in Hu as [(-> & Hk & _)|(Hne & Hu)].
    + symmetry in Hk.
      destruct (wait_pred_effect _ _ _ _ _ _ _ _ _ _ Hd Hp Hk) as (_ & E1 & E2).
      by rewrite E2.
    + destruct D as [D|D].
      * rewrite D. by apply (Ipred u).
      * pose proof (Ilock _ _ Hu) as Hl. unfold lock_ok in Hl. simpl in Hl.
        congruence.
Qed.

Lemma step_inv s e s' : Inv s → step s e = Some s' → Inv s'.
Proof.
  intros I H. unfold step in H.
  destruct (halted (objects s)); [discriminate|].
  destruct e as [dt|t op|t|t]; try by eapply exec_inv.
  injection H as <-. by destruct I.
Qed.

Lemma run_inv sched : ∀ s s', Inv s → run sched s = Some s' → Inv s'.
Proof.
  induction sched as [|e sched IH]; simpl; intros s s' I H.
  - by simplify_eq.
  - destruct (step s e) as [s1|] eqn:Hs; [|discriminate].
    eauto using step_inv.
Qed.

Lemma waiting_replicate_Idle n : waiting (replicate n Idle) = 0.
Proof. induction n; simpl; lia. Qed.

Lemma init_inv sc ec d n : Z.of_nat n < 2 ^ 31 → Inv (init sc ec d n).
Proof.
  intros Hn. constructor; simpl.
  - by rewrite length_replicate.
  - by rewrite waiting_replicate_Idle.
  - intros t p H. apply lookup_replicate in H as [-> _]. discriminate.
  - discriminate.
  - intros t p H. apply lookup_replicate in H as [-> _]. done.
  - intros c. destruct sc; simpl; intros; simplify_eq. lia.
  - intros t p H. apply lookup_replicate in H as [-> _]. discriminate.
  - intros t H. apply lookup_replicate in H as [? _]. discriminate.
  - intros t pred H. apply lookup_replicate in H as [? _]. discriminate.
Qed.

Lemma reachable_inv sc ec d n s :
  Z.of_nat n < 2 ^ 31 → reachable sc ec d n s → Inv s.
Proof.
  intros Hn [sched H]. eapply run_inv; [|exact H]. by apply init_inv.
Qed.

(** ** Properties of the two engines *)

(** One statement of a live thread, spelled out. *)
Lemma step_Run s t p :
  halted (objects s) = None →
  threads s !! t = Some p →
  step s (Run t) =
    match decode p in_run with
    | Some (a, k) =>
        match perform t a false (objects s) with
        | Some (sh, r) =>
            Some {| objects := sh; threads := <[t := k r]> (threads s) |}
        | None => None
        end
    | None => None
    end.
Proof.
  intros Hh Ht. unfold step, exec. by rewrite Hh, Ht.
Qed.

Lemma step_alive s e s' : step s e = Some s' → halted (objects s) = None.
Proof.
  unfold step. by destruct (halted (objects s)).
Qed.

Lemma notifying_keeps_count p i a k t e sh sh' r :
  notifying p = true →
  decode p i = Some (a, k) →
  perform t a e sh = Some (sh', r) →
  mNumWaiters sh' = mNumWaiters sh.
Proof.
  intros Hn Hd Hp.
  decode_cases Hd; simpl in Hn; try discriminate Hn; by perform_cases Hp.
Qed.

(** C6. The waiter count of the emulated engine is never negative: in every
    state the machine can reach, whichever of wait, wait_for, wait_until,
    notify_one and notify_all the threads are running, [mNumWaiters] equals
    the number of threads that have passed the increment of line 73 and not
    yet the decrement of line 78, so it is at least zero; and no statement of
    notify_one or notify_all changes it. *)
Theorem waiter_count_never_negative sc ec d n s :
  Z.of_nat n < 2 ^ 31 →
  reachable sc ec d n s →
  0 ≤ mNumWaiters (objects s)
  ∧ mNumWaiters (objects s) = waiting (threads s)
  ∧ ∀ t p s', threads s !! t = Some p → notifying p = true →
      step s (Run t) = Some s' ∨ step s (Expire t) = Some s' →
      mNumWaiters (objects s') = mNumWaiters (objects s).
Proof.
  intros Hn Hr. pose proof (reachable_inv _ _ _ _ _ Hn Hr) as I.
  pose proof (waiting_bounds (threads s)) as B.
  rewrite (inv_count _ I). split; [lia|]. split; [done|].
  intros t p s' Ht Hp Hs. rewrite <- (inv_count _ I).
  assert (∃ x, exec t in_run x s = Some s') as [x Hx].
  { unfold step in Hs. destruct (halted (objects s)); [by destruct Hs|].
    destruct Hs; eauto. }
  apply exec_inversion in Hx as (q & a & k & r & Hu & Hd & Hq & Hth).
  simplify_eq. by eapply notifying_keeps_count.
Qed.


(** C2. wait_impl of the emulated engine performs, in this order and whatever
    the wait on the semaphore yields: the guarded increment of the waiter
    count, the release of the caller's lock, the wait on the semaphore with
    the time-out it was given, the decrement of the waiter count, SetEvent on
    the drain event, the re-acquisition of the caller's lock; it then hands
    [true] to its caller after a wake-up and [false] after a time-out.  In a
    reachable state the caller holds its lock on entry, the increment runs
    under the guard, and the count moves by exactly one each way. *)
Theorem wait_impl_steps sc ec d n s t time k :
  Z.of_nat n < 2 ^ 31 →
  reachable sc ec d n s →
  halted (objects s) = None →
  (∀ v1 v2 v3 v4 ret v6 v7 v8,
     trace (W_guard time k) [v1; v2; v3; v4; ret; v6; v7; v8] =
       ([A_guard_lock; A_inc; A_guard_unlock; A_unlock; A_wait_semaphore time;
         A_dec; A_set_event; A_lock], wait_impl_result ret k))
  ∧ wait_impl_result WAIT_OBJECT_0 k = resume k true
  ∧ wait_impl_result WAIT_TIMEOUT k = resume k false
  ∧ (threads s !! t = Some (W_guard time k) → lock_owner (objects s) = Some t)
  ∧ (threads s !! t = Some (W_inc time k) →
     mMutex (objects s) = Some (t, 1%nat)
     ∧ moves s t (W_unguard time k)
         (set_mNumWaiters (mNumWaiters (objects s) + 1) (objects s)))
  ∧ (threads s !! t = Some (W_unguard time k) →
     moves s t (W_unlock time k) (set_mMutex None (objects s)))
  ∧ (threads s !! t = Some (W_unlock time k) →
     moves s t (W_block time k) (set_lock_owner None (objects s)))
  ∧ (∀ c, threads s !! t = Some (W_block time k) →
     mSemaphore (objects s) = Some c →
     if 0 <? c
     then moves s t (W_dec WAIT_OBJECT_0 k) (set_mSemaphore (Some (c - 1)) (objects s))
     else (time ≠ 0 → step s (Run t) = None)
          ∧ (time ≠ INFINITE →
             step s (Expire t) =
               Some {| objects := set_mSemaphore (Some c) (objects s);
                       threads := <[t := W_dec WAIT_TIMEOUT k]> (threads s) |}))
  ∧ (∀ ret, threads s !! t = Some (W_dec ret k) →
     moves s t (W_setevent ret k)
       (set_mNumWaiters (mNumWaiters (objects s) - 1) (objects s)))
  ∧ (∀ ret, threads s !! t = Some (W_setevent ret k) →
     moves s t (W_relock ret k)
       (set_mWakeEvent (SetEvent (mWakeEvent (objects s))) (objects s)))
  ∧ (∀ ret, threads s !! t = Some (W_relock ret k) →
     lock_owner (objects s) ≠ Some t
     ∧ (lock_owner (objects s) = None →
        moves s t (wait_impl_result ret k) (set_lock_owner (Some t) (objects s)))).
Proof.
  intros Hn Hr Hh. pose proof (reachable_inv _ _ _ _ _ Hn Hr) as I.
  pose proof (waiting_bounds (threads s)) as B.
  pose proof (inv_small _ I) as Hsmall. pose proof (inv_count _ I) as Hcount.
  unfold moves. repeat split.
  - intros Ht. apply (inv_lock _ I _ _ Ht).
  - by apply (inv_guard _ I _ _ H).
  - rewrite (step_Run _ _ _ Hh H). simpl.
    pose proof (waiting_room _ _ _ H eq_refl). rewrite int_of_small; [done|lia].
  - intros Ht. rewrite (step_Run _ _ _ Hh Ht). simpl.
    rewrite (inv_guard _ I _ _ Ht eq_refl). simpl. by rewrite Nat.eqb_refl.
  - intros Ht. rewrite (step_Run _ _ _ Hh Ht). simpl.
    pose proof (inv_lock _ I _ _ Ht) as Hl. unfold lock_ok in Hl. simpl in Hl.
    rewrite Hl. simpl. by rewrite Nat.eqb_refl.
  - intros c Ht Hc. destruct (Z.ltb_spec 0 c) as [Hpos|Hle].
    + rewrite (step_Run _ _ _ Hh Ht). simpl. rewrite Hc. simpl.
      unfold semaphore_acquire. by destruct (Z.ltb_spec 0 c); [|lia].
    + split.
      * intros Ht0. rewrite (step_Run _ _ _ Hh Ht). simpl. rewrite Hc. simpl.
        unfold semaphore_acquire. destruct (Z.ltb_spec 0 c); [lia|].
        by destruct (Z.eqb_spec time 0).
      * intros Hinf. unfold step, exec. rewrite Hh, Ht. simpl. rewrite Hc. simpl.
        unfold semaphore_acquire. destruct (Z.ltb_spec 0 c); [lia|].
        destruct (Z.eqb_spec time INFINITE); [done|]. simpl.
        by rewrite orb_true_r.
  - intros ret Ht. rewrite (step_Run _ _ _ Hh Ht). simpl.
    pose proof (waiting_parked _ _ _ Ht eq_refl). rewrite int_of_small; [done|lia].
  - intros ret Ht. by rewrite (step_Run _ _ _ Hh Ht).
  - apply (inv_lock _ I _ _ H).
  - intros Hl. rewrite (step_Run _ _ _ Hh H). simpl. by rewrite Hl.
Qed.


(** C7. When the wait on the semaphore yields a status that is neither
    WAIT_OBJECT_0 nor WAIT_TIMEOUT, wait_impl of the emulated engine ends by
    throwing system_error(EPROTO) to whichever of wait, wait_for and
    wait_until called it: the thread is back in client code with the
    exception, no value is returned, and the process is still running. *)
Theorem wait_impl_unexpected_status_throws s t ret k s' :
  ret ≠ WAIT_OBJECT_0 → ret ≠ WAIT_TIMEOUT →
  threads s !! t = Some (W_relock ret k) →
  step s (Run t) = Some s' →
  (∀ time v1 v2 v3,
     trace (W_block time k) [ret; v1; v2; v3] =
       ([A_wait_semaphore time; A_dec; A_set_event; A_lock], Done (thrown EPROTO)))
  ∧ threads s' !! t = Some (Done (thrown EPROTO))
  ∧ (∀ b, resume k b ≠ Done (thrown EPROTO))
  ∧ halted (objects s') = None.
Proof.
  intros H0 H1 Ht Hs.
  assert (E : wait_impl_result ret k = Done (thrown EPROTO)).
  { unfold wait_impl_result.
    destruct (Z.eqb_spec ret WAIT_OBJECT_0); [done|].
    by destruct (Z.eqb_spec ret WAIT_TIMEOUT). }
  pose proof (step_alive _ _ _ Hs) as Hh.
  rewrite (step_Run _ _ _ Hh Ht) in Hs. simpl in Hs.
  destruct (lock_owner (objects s)) eqn:Hl; [discriminate|].
  injection Hs as <-. simpl. repeat split.
  - intros. simpl. by rewrite E.
  - rewrite E. apply list_lookup_insert_eq. by eapply lookup_lt_Some.
  - intros b. destruct k, b; simpl; discriminate.
  - done.
Qed.

(** The only statements that lead to the three places of the throwing
    path, and what they do to the shared objects. *)
Lemma setevent_arrival p i a k t e sh sh' r ret k0 :
  decode p i = Some (a, k) →
  perform t a e sh = Some (sh', r) →
  k r = W_setevent ret k0 →
  p = W_dec ret k0
  ∧ mNumWaiters sh' = int_of (mNumWaiters sh - 1)
  ∧ mWakeEvent sh' = mWakeEvent sh.
Proof.
  intros Hd Hp. decode_cases Hd; perform_cases Hp; flow_cases;
    intros; by simplify_eq.
Qed.

Lemma relock_arrival p i a k t e sh sh' r ret k0 :
  decode p i = Some (a, k) →
  perform t a e sh = Some (sh', r) →
  k r = W_relock ret k0 →
  p = W_setevent ret k0
  ∧ (∀ b, mWakeEvent sh = Some b → mWakeEvent sh' = Some true)
  ∧ (mWakeEvent sh = None → mWakeEvent sh' = None)
  ∧ mNumWaiters sh' = mNumWaiters sh.
Proof.
  intros Hd Hp. decode_cases Hd; perform_cases Hp; flow_cases;
    intros; simplify_eq.
  simpl. repeat split; [intros b Hb|intros Hb]; by rewrite Hb.
Qed.

Lemma throw_arrival p i a k t e sh sh' r :
  decode p i = Some (a, k) →
  perform t a e sh = Some (sh', r) →
  k r = Done (thrown EPROTO) →
  ∃ ret k0, p = W_relock ret k0
            ∧ ret ≠ WAIT_OBJECT_0 ∧ ret ≠ WAIT_TIMEOUT
            ∧ lock_owner sh = None ∧ lock_owner sh' = Some t
            ∧ mWakeEvent sh' = mWakeEvent sh
            ∧ mNumWaiters sh' = mNumWaiters sh.
Proof.
  intros Hd Hp. decode_cases Hd; perform_cases Hp; flow_cases;
    intros; simplify_eq; bool_arith.
  by eexists _, _.
Qed.

(** C9. On the path where wait_impl of the emulated engine throws, the
    decrement of the waiter count, SetEvent on the drain event and the
    re-acquisition of the caller's lock all come before the throw.  A thread
    reaches the throw only out of the re-acquisition of its lock, that only
    out of SetEvent, which leaves the drain event signaled when there is an
    event behind the handle (with a null handle there is nothing to signal),
    and that only out of the decrement, which lowers the count by one.  So
    the caller that receives the exception holds its lock, and the waiter
    count is the number of threads still between increment and decrement. *)
Theorem wait_impl_throws_after_cleanup sc ec d n s t :
  Z.of_nat n < 2 ^ 31 →
  reachable sc ec d n s →
  (∀ time ret k v1 v2 v3,
     ret ≠ WAIT_OBJECT_0 → ret ≠ WAIT_TIMEOUT →
     trace (W_block time k) [ret; v1; v2; v3] =
       ([A_wait_semaphore time; A_dec; A_set_event; A_lock], Done (thrown EPROTO)))
  ∧ (∀ s', step s (Run t) = Some s' ∨ step s (Expire t) = Some s' →
     (∀ ret k, threads s' !! t = Some (W_setevent ret k) →
        threads s !! t = Some (W_dec ret k)
        ∧ mNumWaiters (objects s') = mNumWaiters (objects s) - 1
        ∧ mWakeEvent (objects s') = mWakeEvent (objects s))
     ∧ (∀ ret k, threads s' !! t = Some (W_relock ret k) →
        threads s !! t = Some (W_setevent ret k)
        ∧ (∀ b, mWakeEvent (objects s) = Some b →
             mWakeEvent (objects s') = Some true)
        ∧ (mWakeEvent (objects s) = None → mWakeEvent (objects s') = None)
        ∧ mNumWaiters (objects s') = mNumWaiters (objects s))
     ∧ (threads s' !! t = Some (Done (thrown EPROTO)) →
        ∃ ret k, threads s !! t = Some (W_relock ret k)
                 ∧ ret ≠ WAIT_OBJECT_0 ∧ ret ≠ WAIT_TIMEOUT
                 ∧ lock_owner (objects s) = None
                 ∧ lock_owner (objects s') = Some t
                 ∧ mWakeEvent (objects s') = mWakeEvent (objects s)
                 ∧ mNumWaiters (objects s') = mNumWaiters (objects s)))
  ∧ (∀ ret k b, threads s !! t = Some (W_setevent ret k) →
     halted (objects s) = None →
     mWakeEvent (objects s) = Some b →
     moves s t (W_relock ret k) (set_mWakeEvent (Some true) (objects s)))
  ∧ (∀ ret k s', ret ≠ WAIT_OBJECT_0 → ret ≠ WAIT_TIMEOUT →
     threads s !! t = Some (W_relock ret k) →
     step s (Run t) = Some s' →
     threads s' !! t = Some (Done (thrown EPROTO))
     ∧ lock_owner (objects s') = Some t
     ∧ mNumWaiters (objects s') = waiting (threads s')
     ∧ mNumWaiters (objects s') = mNumWaiters (objects s))
  ∧ (threads s !! t = Some (Done (thrown EPROTO)) →
     lock_owner (objects s) = Some t
     ∧ mNumWaiters (objects s) = waiting (threads s)).
Proof.
  intros Hn Hr. pose proof (reachable_inv _ _ _ _ _ Hn Hr) as I.
  assert (E : ∀ ret k, ret ≠ WAIT_OBJECT_0 → ret ≠ WAIT_TIMEOUT →
              wait_impl_result ret k = Done (thrown EPROTO)).
  { intros ret k H0 H1. unfold wait_impl_result.
    destruct (Z.eqb_spec ret WAIT_OBJECT_0); [done|].
    by destruct (Z.eqb_spec ret WAIT_TIMEOUT). }
  split; [|split; [|split; [|split]]].
  - intros. simpl. by rewrite E.
  - intros s' Hs.
    assert (∃ x, exec t in_run x s = Some s') as [x Hx].
    { unfold step in Hs. destruct (halted (objects s)); [by destruct Hs|].
      destruct Hs; eauto. }
    apply exec_inversion in Hx as (p & a & k & r & Ht & Hd & Hp & Hth).
    assert (Hk : threads s' !! t = Some (k r)).
    { rewrite Hth. apply list_lookup_insert_eq. by eapply lookup_lt_Some. }
    rewrite Hk. split; [|split].
    + intros ret k0 Hq. injection Hq as Hq.
      destruct (setevent_arrival _ _ _ _ _ _ _ _ _ _ _ Hd Hp Hq)
        as (-> & Hcount & Hevent).
      split; [done|]. split; [|done]. rewrite Hcount.
      pose proof (waiting_parked _ _ _ Ht eq_refl).
      pose proof (waiting_bounds (threads s)).
      pose proof (inv_small _ I). pose proof (inv_count _ I).
      rewrite int_of_small; lia.
    + intros ret k0 Hq. injection Hq as Hq.
      by destruct (relock_arrival _ _ _ _ _ _ _ _ _ _ _ Hd Hp Hq) as (-> & ?).
    + intros Hq. injection Hq as Hq.
      destruct (throw_arrival _ _ _ _ _ _ _ _ _ Hd Hp Hq)
        as (ret & k0 & -> & ?). by exists ret, k0.
  - intros ret k b Ht Hh Hb. unfold moves.
    rewrite (step_Run _ _ _ Hh Ht). simpl. by rewrite Hb.
  - intros ret k s' H0 H1 Ht Hs.
    pose proof (step_inv _ _ _ I Hs) as I'.
    pose proof (step_alive _ _ _ Hs) as Hh.
    rewrite (step_Run _ _ _ Hh Ht) in Hs. simpl in Hs.
    destruct (lock_owner (objects s)) eqn:Hl; [discriminate|].
    injection Hs as <-. simpl in *. rewrite E by done.
    split; [|split; [done|split; [|done]]].
    + apply list_lookup_insert_eq. by eapply lookup_lt_Some.
    + rewrite <- (E ret k) by done. apply (inv_count _ I').
  - intros Ht. split.
    + apply (inv_lock _ I _ _ Ht).
    + apply (inv_count _ I).
Qed.

(** ** 64-bit durations *)

Lemma long_long_small z : - 2 ^ 63 ≤ z < 2 ^ 63 → long_long z = z.
Proof.
  intros H. unfold long_long. rewrite Z.mod_small; lia.
Qed.

Lemma ratio_gcd_pos (num den : positive) :
  0 < Z.gcd (Z.pos num * 1000) (Z.pos den).
Proof.
  pose proof (Z.gcd_nonneg (Z.pos num * 1000) (Z.pos den)).
  destruct (Z.eq_dec (Z.gcd (Z.pos num * 1000) (Z.pos den)) 0) as [E|]; [|lia].
  apply Z.gcd_eq_0_r in E. lia.
Qed.

Lemma ratio_reduced (num den : positive) :
  Z.pos num * 1000
  = ratio_num num den * Z.gcd (Z.pos num * 1000) (Z.pos den)
  ∧ Z.pos den = ratio_den num den * Z.gcd (Z.pos num * 1000) (Z.pos den).
Proof.
  pose proof (ratio_gcd_pos num den) as Hg.
  unfold ratio_num, ratio_den.
  set (g := Z.gcd (Z.pos num * 1000) (Z.pos den)) in *.
  pose proof (Z.gcd_divide_l (Z.pos num * 1000) (Z.pos den)) as Hl.
  pose proof (Z.gcd_divide_r (Z.pos num * 1000) (Z.pos den)) as Hr.
  fold g in Hl, Hr.
  apply Z.mod_divide in Hl; [|lia]. apply Z.mod_divide in Hr; [|lia].
  apply Z.div_exact in Hl; [|lia]. apply Z.div_exact in Hr; [|lia]. lia.
Qed.

Lemma ratio_num_pos (num den : positive) : 1 ≤ ratio_num num den.
Proof.
  pose proof (ratio_gcd_pos num den). pose proof (ratio_reduced num den) as [E _].
  nia.
Qed.

Lemma ratio_den_pos (num den : positive) : 1 ≤ ratio_den num den.
Proof.
  pose proof (ratio_gcd_pos num den). pose proof (ratio_reduced num den) as [_ E].
  nia.
Qed.

Lemma duration_cast_exact (num den : positive) count :
  - 2 ^ 63 ≤ count * ratio_num num den < 2 ^ 63 →
  duration_cast_milliseconds num den count
  = Z.quot (count * (Z.pos num * 1000)) (Z.pos den).
Proof.
  intros H. unfold duration_cast_milliseconds. rewrite long_long_small by done.
  pose proof (ratio_gcd_pos num den) as Hg.
  pose proof (ratio_den_pos num den) as Hd.
  destruct (ratio_reduced num den) as [En Ed].
  set (g := Z.gcd (Z.pos num * 1000) (Z.pos den)) in *.
  set (n := ratio_num num den) in *. set (d := ratio_den num den) in *.
  replace (count * (Z.pos num * 1000)) with (count * n * g) by lia.
  rewrite Ed. by rewrite Z.quot_mul_cancel_r by lia.
Qed.

Lemma duration_cast_nonpositive (num den : positive) count :
  count ≤ 0 → - 2 ^ 63 ≤ count * ratio_num num den →
  duration_cast_milliseconds num den count ≤ 0.
Proof.
  intros H Hlow. pose proof (ratio_num_pos num den) as Hn.
  pose proof (ratio_den_pos num den) as Hd.
  unfold duration_cast_milliseconds.
  set (a := count * ratio_num num den) in *.
  assert (Ha : 0 ≤ - a) by (unfold a; nia).
  rewrite long_long_small by lia.
  replace a with (- - a) by lia.
  rewrite Z.quot_opp_l by lia.
  pose proof (Z.quot_pos (- a) (ratio_den num den) Ha ltac:(lia)). lia.
Qed.

Lemma wait_for_timeout_nonpositive (num den : positive) count :
  count ≤ 0 → - 2 ^ 63 ≤ count * ratio_num num den →
  wait_for_timeout (duration_cast_milliseconds num den count) = 0.
Proof.
  intros H Hlow. pose proof (duration_cast_nonpositive _ _ _ H Hlow) as Hms.
  unfold wait_for_timeout.
  destruct (Z.ltb_spec (duration_cast_milliseconds num den count) 0).
  - done.
  - by replace (duration_cast_milliseconds num den count) with 0 by lia.
Qed.

(** A product that stays in range keeps the factor in range. *)
Lemma scaled_in_range x y n :
  1 ≤ n → x ≤ y → y ≤ 0 → - 2 ^ 63 ≤ x * n →
  - 2 ^ 63 ≤ y * n ∧ - 2 ^ 63 ≤ y.
Proof. intros. nia. Qed.

(** ** A deadline that has passed stays passed *)

Lemma past_mono h c c' abs_time : c ≤ c' → past h c abs_time → past h c' abs_time.
Proof. unfold past. lia. Qed.

Lemma overdue_cont_mono h c c' k :
  c ≤ c' → overdue_cont h c k → overdue_cont h c' k.
Proof. destruct k; simpl; eauto using past_mono. Qed.

Lemma overdue_mono h c c' p : c ≤ c' → overdue h c p → overdue h c' p.
Proof.
  intros Hc. pose proof (ratio_num_pos tick_num tick_den).
  destruct p; simpl; eauto using overdue_cont_mono, past_mono.
  1: intros (? & ? & ? & ?); repeat split; try lia; nia.
  all: intros [? ?]; split; eauto using overdue_cont_mono, past_mono.
Qed.

Lemma clock_effect t a e sh sh' r :
  perform t a e sh = Some (sh', r) → clock sh' = clock sh.
Proof.
  intros Hp. by destruct a; perform_cases Hp.
Qed.

Lemma step_clock s e s' :
  step s e = Some s' → clock (objects s) ≤ clock (objects s').
Proof.
  intros H. unfold step in H. destruct (halted (objects s)); [discriminate|].
  destruct e as [dt|u op|u|u]; [injection H as <-; simpl; lia| | |];
    apply exec_inversion in H as (q & a & k & r & Hu & Hd & Hp & Hth);
    rewrite (clock_effect _ _ _ _ _ _ Hp); lia.
Qed.

Lemma run_clock sched : ∀ s s',
  run sched s = Some s' → clock (objects s) ≤ clock (objects s').
Proof.
  induction sched as [|e sched IH]; simpl; intros s s' H.
  - simplify_eq. lia.
  - destruct (step s e) as [s1|] eqn:Hs; [|discriminate].
    pose proof (step_clock _ _ _ Hs). pose proof (IH _ _ H). lia.
Qed.

Lemma overdue_resume h c k b : overdue_cont h c k → overdue h c (resume k b).
Proof. destruct k, b; simpl; auto. Qed.

Lemma overdue_wait_impl h c k : overdue_cont h c k → overdue h c (wait_impl 0 k).
Proof. unfold wait_impl. destruct engine; simpl; auto. Qed.

Lemma overdue_wait_for h c abs_time k :
  c ≤ h → past h c abs_time → overdue_cont h c k →
  overdue h c (wait_for (long_long (abs_time - c)) k).
Proof.
  intros Hc [Hle Hlow] Hk. pose proof (ratio_num_pos tick_num tick_den) as Hn.
  destruct (scaled_in_range (abs_time - h) (abs_time - c) _ Hn
              ltac:(lia) ltac:(lia) Hlow) as [Hprod Hdiff].
  unfold wait_for. rewrite long_long_small by lia.
  rewrite wait_for_timeout_nonpositive by (done || lia).
  by apply overdue_wait_impl.
Qed.

Lemma overdue_effect h p a k t e sh sh' r :
  decode p in_run = Some (a, k) →
  perform t a e sh = Some (sh', r) →
  clock sh ≤ h →
  overdue h (clock sh) p → overdue h (clock sh') (k r).
Proof.
  intros Hd Hp Hh Ho. rewrite (clock_effect _ _ _ _ _ _ Hp).
  destruct p; simpl in Ho; try done; simpl in Hd; try discriminate Hd;
    simplify_eq;
    try match type of Ho with _ ∧ _ => destruct Ho as [? ?] end;
    try (by simpl; auto);
    try (by repeat case_match; simpl; auto using overdue_resume).
  - simpl in Hp. simplify_eq. simpl.
    rewrite long_long_small by lia. unfold past. lia.
  - simpl in Hp. simplify_eq. by apply overdue_wait_for.
  - unfold wait_impl_result. repeat case_match; simpl; auto using overdue_resume.
Qed.

Lemma overdue_exec h t u i e s s' p :
  (u = t → i = in_run) →
  clock (objects s) ≤ h →
  threads s !! t = Some p → overdue h (clock (objects s)) p →
  exec u i e s = Some s' →
  ∃ p', threads s' !! t = Some p' ∧ overdue h (clock (objects s')) p'.
Proof.
  intros Hi Hh Ht Ho H.
  apply exec_inversion in H as (q & a & k & r & Hu & Hd & Hp & Hth).
  rewrite Hth. destruct (decide (u = t)) as [->|Hne].
  - rewrite (Hi eq_refl) in Hd. simplify_eq. exists (k r). split.
    + apply list_lookup_insert_eq. by eapply lookup_lt_Some.
    + by eapply overdue_effect.
  - exists p. rewrite list_lookup_insert_ne by done. split; [done|].
    by rewrite (clock_effect _ _ _ _ _ _ Hp).
Qed.

Lemma overdue_run t sched : ∀ s s' p,
  Forall (quiet t) sched →
  threads s !! t = Some p →
  overdue (clock (objects s')) (clock (objects s)) p →
  run sched s = Some s' →
  ∃ p', threads s' !! t = Some p'
        ∧ overdue (clock (objects s')) (clock (objects s')) p'.
Proof.
  induction sched as [|e sched IH]; simpl; intros s s' p Hq Ht Ho H.
  - simplify_eq. eauto.
  - destruct (step s e) as [s1|] eqn:Hs; [|discriminate].
    apply Forall_cons in Hq as [Hq1 Hq2].
    pose proof (step_clock _ _ _ Hs) as Hc1.
    pose proof (run_clock _ _ _ H) as Hc2.
    assert (∃ p1, threads s1 !! t = Some p1
                  ∧ overdue (clock (objects s')) (clock (objects s1)) p1)
      as (p1 & Ht1 & Ho1).
    { unfold step in Hs. destruct (halted (objects s)); [discriminate|].
      destruct e as [dt|u op|u|u]; simpl in Hq1.
      - injection Hs as <-. simpl. exists p. split; [done|].
        eapply overdue_mono; [|exact Ho]. lia.
      - eapply overdue_exec; [| | | |exact Hs]; eauto; [intros; done|lia].
      - eapply overdue_exec; [| | | |exact Hs]; eauto. lia.
      - eapply overdue_exec; [| | | |exact Hs]; eauto. lia. }
    eauto.
Qed.



(** C8 (as amended). In notify_one and notify_all a wait on the drain
    event that yields WAIT_FAILED or WAIT_ABANDONED is followed by
    std::terminate(): the process is dead and no thread runs any further;
    a null event handle is one way for the wait to fail.  The constructor
    does not look at the handles it gets: when CreateSemaphore or CreateEvent
    fails it stores the null handle and construction completes normally. *)
Theorem drain_wait_failure_terminates s t :
  halted (objects s) = None →
  (∀ ret v, wait_failed ret = true →
     trace NA_wait [ret; v] = ([A_wait_event 1000; A_terminate], Terminating)
     ∧ ∀ targetWaiters,
         trace (NO_wait targetWaiters) [ret; v] =
           ([A_wait_event 1000; A_terminate], Terminating))
  ∧ (threads s !! t = Some NA_wait ∨ (∃ n, threads s !! t = Some (NO_wait n)) →
     mWakeEvent (objects s) = None →
     moves s t Terminating (objects s))
  ∧ (threads s !! t = Some Terminating →
     ∃ s', step s (Run t) = Some s'
           ∧ halted (objects s') = Some Terminated
           ∧ ∀ e, step s' e = None)
  ∧ (∀ sc ec d,
       halted (condition_variable_any sc ec d) = None
       ∧ mNumWaiters (condition_variable_any sc ec d) = 0
       ∧ mSemaphore (condition_variable_any sc ec d) = (if sc then Some 0 else None)
       ∧ mWakeEvent (condition_variable_any sc ec d)
         = (if ec then Some false else None)).
Proof.
  intros Hh. split; [|split; [|split]].
  - intros ret v Hf. simpl. by rewrite Hf.
  - intros Ht He. unfold moves.
    assert (E : set_mWakeEvent None (objects s) = objects s).
    { destruct (objects s). simpl in *. by subst. }
    destruct Ht as [Ht|[n Ht]]; rewrite (step_Run _ _ _ Hh Ht); simpl;
      rewrite He; simpl; by rewrite E.
  - intros Ht. rewrite (step_Run _ _ _ Hh Ht). simpl.
    eexists. split; [done|]. by split.
  - intros sc ec d. by destruct sc, ec.
Qed.

End Correctness.

(** ** The properties on concrete runs *)

(** The count after the race of [both_leave]. *)
Lemma waiter_count_never_negative_witness :
  Z.of_nat 3 < 2 ^ 31
  ∧ reachable (cfg := xp_debug) true true tt 3 race_end
  ∧ 0 ≤ mNumWaiters (objects race_end).
Proof.
  assert (H1 : Z.of_nat 3 < 2 ^ 31) by reflexivity.
  assert (H2 : reachable (cfg := xp_debug) true true tt 3 race_end)
    by (exists (two_parked_one_notifying ++ both_leave ++ [Run 2]);
        vm_compute; reflexivity).
  split; [exact H1|]. split; [exact H2|].
  exact (proj1 (waiter_count_never_negative _ _ _ _ _ H1 H2)).
Defined.


(** A waiter parked with a time-out of 50ms on an empty semaphore: it stays
    blocked until the time-out elapses. *)
Lemma wait_impl_steps_witness :
  threads race_start !! 0%nat = Some (W_block 50 k_wait_for)
  ∧ mSemaphore (objects race_start) = Some 0
  ∧ step race_start (Run 0) = None
  ∧ step race_start (Expire 0) =
      Some {| objects := set_mSemaphore (Some 0) (objects race_start);
              threads := <[0%nat := W_dec WAIT_TIMEOUT k_wait_for]> (threads race_start) |}.
Proof.
  assert (H1 : Z.of_nat 3 < 2 ^ 31) by reflexivity.
  assert (H2 : reachable (cfg := xp_debug) true true tt 3 race_start)
    by (exists two_parked_one_notifying; vm_compute; reflexivity).
  assert (H3 : halted (objects race_start) = None) by (vm_compute; reflexivity).
  assert (H4 : threads race_start !! 0%nat = Some (W_block 50 k_wait_for))
    by (vm_compute; reflexivity).
  assert (H5 : mSemaphore (objects race_start) = Some 0)
    by (vm_compute; reflexivity).
  destruct (wait_impl_steps _ _ _ _ _ 0%nat 50 k_wait_for H1 H2 H3)
    as (_ & _ & _ & _ & _ & _ & _ & Hblock & _).
  destruct (Hblock 0 H4 H5) as [Hrun Hexpire].
  split; [exact H4|]. split; [exact H5|]. split.
  - apply Hrun. discriminate.
  - apply Hexpire. discriminate.
Defined.


(** C4 (the code against its assertion). Two threads are parked in wait_for
    when notify_one reads the count 2 and sets its target to 1.  It releases
    one unit, one waiter takes it and the time-out of the other elapses; both
    have decremented the count when the loop of line 142 reads it.  The loop
    ends with the count at 0, two below the value read on entry: the
    assertion of line 148 fails and the process aborts; with [NDEBUG]
    notify_one returns with the count two lower. *)
Theorem notify_one_count_drops_by_two :
  (threads race_start !! 2%nat = Some (NO_release 1)
   ∧ mNumWaiters (objects race_start) = 2)
  ∧ (run (two_parked_one_notifying ++ both_leave ++ [Run 2])
       (init (cfg := xp_debug) true true tt 3) = Some race_end
     ∧ threads race_end !! 2%nat = Some Aborting
     ∧ halted (objects race_end) = Some Aborted
     ∧ mNumWaiters (objects race_end) = 0)
  ∧ (run (two_parked_one_notifying ++ both_leave ++ [Run 2])
       (init (cfg := xp_ndebug) true true tt 3) = Some race_end_ndebug
     ∧ threads race_end_ndebug !! 2%nat = Some (Done returned_notify)
     ∧ halted (objects race_end_ndebug) = None
     ∧ mNumWaiters (objects race_end_ndebug) = 0).
Proof. vm_compute. repeat split. Qed.


(** Below the range in which a duration of at most zero polls: the
    millisecond count of -9223372036854776 seconds wraps to a positive
    64-bit value, of which wait_impl is handed the low 32 bits. *)
Lemma wait_for_far_negative_wraps :
  duration_cast_milliseconds 1 1 (- 9223372036854776) = 9223372036854775616
  ∧ wait_for (cfg := xp_seconds) (- 9223372036854776) k_wait_for
    = W_guard 4294967104 k_wait_for.
Proof. split; vm_compute; reflexivity. Qed.


(** wait(lock) on an object whose semaphore could not be created. *)
Lemma wait_impl_unexpected_status_throws_witness :
  threads no_semaphore !! 0%nat = Some (W_relock WAIT_FAILED k_wait)
  ∧ threads thrown_to_caller !! 0%nat = Some (Done (thrown EPROTO))
  ∧ halted (objects thrown_to_caller) = None.
Proof.
  assert (H1 : WAIT_FAILED ≠ WAIT_OBJECT_0) by discriminate.
  assert (H2 : WAIT_FAILED ≠ WAIT_TIMEOUT) by discriminate.
  assert (H3 : threads no_semaphore !! 0%nat = Some (W_relock WAIT_FAILED k_wait))
    by (vm_compute; reflexivity).
  assert (H4 : step no_semaphore (Run 0) = Some thrown_to_caller)
    by (vm_compute; reflexivity).
  destruct (wait_impl_unexpected_status_throws _ _ _ _ _ H1 H2 H3 H4)
    as (_ & Hthrown & _ & Halive).
  split; [exact H3|]. split; [exact Hthrown|exact Halive].
Defined.

(** C8 (counterexample). With neither handle created the
    object is constructed and the process runs on; with no semaphore a later
    wait(lock) ends with the EPROTO exception in its caller, the process
    still running. *)
Lemma failed_creation_is_not_fatal :
  halted (objects (init (cfg := xp_debug) false false tt 1)) = None
  ∧ threads <$> run (wait_up_to_relock ++ [Run 0])
                  (init (cfg := xp_debug) false true tt 1)
    = Some [Done (thrown EPROTO)]
  ∧ halted (objects thrown_to_caller) = None.
Proof. vm_compute. repeat split. Qed.

(** notify_all on an object whose event could not be created. *)
Lemma drain_wait_failure_terminates_witness :
  threads no_event !! 1%nat = Some NA_wait
  ∧ mWakeEvent (objects no_event) = None
  ∧ moves no_event 1 Terminating (objects no_event).
Proof.
  assert (H1 : halted (objects no_event) = None) by (vm_compute; reflexivity).
  assert (H2 : threads no_event !! 1%nat = Some NA_wait)
    by (vm_compute; reflexivity).
  assert (H3 : mWakeEvent (objects no_event) = None)
    by (vm_compute; reflexivity).
  destruct (drain_wait_failure_terminates no_event 1 H1) as (_ & Hfail & _).
  split; [exact H2|]. split; [exact H3|].
  apply Hfail; [by left|exact H3].
Defined.

(** The drain event is signaled on the way to the throw, and the caller that
    received the exception holds its lock. *)
Lemma wait_impl_throws_after_cleanup_witness :
  threads signalling !! 0%nat = Some (W_setevent WAIT_FAILED k_wait)
  ∧ mWakeEvent (objects signalling) = Some false
  ∧ moves signalling 0 (W_relock WAIT_FAILED k_wait)
      (set_mWakeEvent (Some true) (objects signalling))
  ∧ threads thrown_to_caller !! 0%nat = Some (Done (thrown EPROTO))
  ∧ lock_owner (objects thrown_to_caller) = Some 0%nat
  ∧ mNumWaiters (objects thrown_to_caller) = waiting (threads thrown_to_caller).
Proof.
  assert (H1 : Z.of_nat 1 < 2 ^ 31) by reflexivity.
  assert (H2 : reachable (cfg := xp_debug) false true tt 1 thrown_to_caller)
    by (exists (wait_up_to_relock ++ [Run 0]); vm_compute; reflexivity).
  assert (H3 : threads thrown_to_caller !! 0%nat = Some (Done (thrown EPROTO)))
    by (vm_compute; reflexivity).
  assert (H4 : reachable (cfg := xp_debug) false true tt 1 signalling)
    by (exists (park 0 call_wait ++ [Run 0; Run 0]); vm_compute; reflexivity).
  assert (H5 : threads signalling !! 0%nat
               = Some (W_setevent WAIT_FAILED k_wait))
    by (vm_compute; reflexivity).
  assert (H6 : halted (objects signalling) = None) by (vm_compute; reflexivity).
  assert (H7 : mWakeEvent (objects signalling) = Some false)
    by (vm_compute; reflexivity).
  destruct (wait_impl_throws_after_cleanup _ _ _ _ _ 0%nat H1 H4)
    as (_ & _ & Hsignal & _).
  destruct (wait_impl_throws_after_cleanup _ _ _ _ _ 0%nat H1 H2)
    as (_ & _ & _ & _ & Hthrown).
  split; [exact H5|]. split; [exact H7|].
  split; [exact (Hsignal _ _ _ H5 H6 H7)|].
  split; [exact H3|]. exact (Hthrown H3).
Defined.

(** ** Where failures come from *)

Section Failures.

Context {cfg : Config}.

Lemma handles_effect t a e sh sh' r :
  perform t a e sh = Some (sh', r) →
  (mSemaphore sh' = None ↔ mSemaphore sh = None)
  ∧ (mWakeEvent sh' = None ↔ mWakeEvent sh = None).
Proof.
  intros Hp. destruct a; perform_cases Hp; simpl; try done;
    unfold SetEvent; repeat case_match; simplify_eq; done.
Qed.

Lemma halted_effect p i a k t e sh sh' r :
  decode p i = Some (a, k) →
  perform t a e sh = Some (sh', r) →
  halted sh' = halted sh
  ∨ (p = Terminating ∧ halted sh' = Some Terminated)
  ∨ (p = Aborting ∧ halted sh' = Some Aborted).
Proof.
  intros Hd Hp. decode_cases Hd; perform_cases Hp; simpl; auto.
Qed.

Lemma status_effect p i a k t e sh sh' r :
  decode p i = Some (a, k) →
  perform t a e sh = Some (sh', r) →
  mSemaphore sh ≠ None →
  status_ok p → status_ok (k r).
Proof.
  intros Hd Hp Hs Ho. decode_cases Hd; perform_cases Hp; flow_cases;
    simpl in *; bool_arith; try done; auto; try lia.
Qed.

Lemma terminating_effect p i a k t e sh sh' r :
  decode p i = Some (a, k) →
  perform t a e sh = Some (sh', r) →
  mWakeEvent sh ≠ None →
  k r = Terminating → p = Terminating.
Proof.
  intros Hd Hp Hs. decode_cases Hd; perform_cases Hp; flow_cases;
    intros; simplify_eq; done.
Qed.

Lemma aborting_effect p i a k r :
  decode p i = Some (a, k) →
  k r = Aborting → p = Aborting ∨ NDEBUG = false.
Proof.
  intros Hd. decode_cases Hd; flow_cases; intros; simplify_eq; auto.
Qed.

Lemma owner_check_effect p i a k t e sh sh' r :
  decode p i = Some (a, k) →
  perform t a e sh = Some (sh', r) →
  lock_ok t sh p →
  k r ≠ Done (thrown resource_deadlock_would_occur).
Proof.
  unfold lock_ok.
  intros Hd Hp. decode_cases Hd; perform_cases Hp; flow_cases;
    intros Hl; try discriminate.
  rewrite Hl in *. simpl in *. by rewrite Nat.eqb_refl in *.
Qed.

Lemma engine_effect p i a k r :
  decode p i = Some (a, k) →
  (engine = XP → vista_statement p = false → vista_statement (k r) = false)
  ∧ (engine = Vista → xp_statement p = false → xp_statement (k r) = false).
Proof.
  intros Hd. decode_cases Hd; flow_cases; split; intros; simpl in *;
    congruence.
Qed.

Lemma protocol_error_effect p i a k r :
  decode p i = Some (a, k) →
  k r = Done (thrown EPROTO) → xp_statement p = true.
Proof.
  intros Hd. decode_cases Hd; flow_cases; intros; simplify_eq; done.
Qed.

Lemma exec_failures t i e s s' :
  Inv s → Inv_failures s → halted (objects s) = None →
  exec t i e s = Some s' → Inv_failures s'.
Proof.
  intros I [Fstatus Falive Fassert Fowner Fxp Fvista] Hh H.
  apply exec_inversion in H as (p & a & k & r & Ht & Hd & Hp & Hth).
  destruct (handles_effect _ _ _ _ _ _ Hp) as [Hsem Hev].
  pose proof (halted_effect _ _ _ _ _ _ _ _ _ Hd Hp) as Hhalt.
  destruct (engine_effect _ _ _ _ r Hd) as [Exp Evista].
  constructor; rewrite ?Hth.
  - intros Hs u q Hu.
    assert (Hs0 : mSemaphore (objects s) ≠ None) by (intros E; by apply Hs, Hsem).
    apply lookup_after in Hu as [(-> & -> & _)|(Hne & Hu)]; [|by eapply Fstatus].
    eapply status_effect; eauto.
  - intros Hs.
    assert (Hs0 : mWakeEvent (objects s) ≠ None) by (intros E; by apply Hs, Hev).
    destruct (Falive Hs0) as [F1 F2]. split.
    + destruct Hhalt as [E|[[-> E]|[_ E]]];
        first [congruence | by destruct (F2 t)].
    + intros u Hu.
      apply lookup_after in Hu as [(-> & Hk & _)|(Hne & Hu)]; [|by destruct (F2 u)].
      symmetry in Hk.
      pose proof (terminating_effect _ _ _ _ _ _ _ _ _ Hd Hp Hs0 Hk) as ->.
      by destruct (F2 t).
  - intros Hn. destruct (Fassert Hn) as [F1 F2]. split.
    + destruct Hhalt as [E|[[_ E]|[-> E]]];
        first [congruence | by destruct (F2 t)].
    + intros u Hu.
      apply lookup_after in Hu as [(-> & Hk & _)|(Hne & Hu)]; [|by destruct (F2 u)].
      symmetry in Hk.
      destruct (aborting_effect _ _ _ _ _ Hd Hk) as [->|E]; [|congruence].
      by destruct (F2 t).
  - intros u Hu.
    apply lookup_after in Hu as [(-> & Hk & _)|(Hne & Hu)]; [|by destruct (Fowner u)].
    symmetry in Hk.
    by destruct (owner_check_effect _ _ _ _ _ _ _ _ _ Hd Hp (inv_lock _ I _ _ Ht)).
  - intros Hx u q Hu.
    apply lookup_after in Hu as [(-> & -> & _)|(Hne & Hu)]; eauto.
  - intros Hv. destruct (Fvista Hv) as (F1 & F2 & F3). split; [|split].
    + destruct Hhalt as [E|[[-> E]|[-> E]]];
        first [congruence | by pose proof (F2 _ _ Ht)].
    + intros u q Hu.
      apply lookup_after in Hu as [(-> & -> & _)|(Hne & Hu)]; eauto.
    + intros u Hu.
      apply lookup_after in Hu as [(-> & Hk & _)|(Hne & Hu)]; [|by destruct (F3 u)].
      symmetry in Hk.
      pose proof (protocol_error_effect _ _ _ _ _ Hd Hk) as Hx.
      pose proof (F2 _ _ Ht). congruence.
Qed.

Lemma step_failures s e s' :
  Inv s → Inv_failures s → step s e = Some s' → Inv_failures s'.
Proof.
  intros I F H. pose proof (step_alive _ _ _ H) as Hh.
  unfold step in H. rewrite Hh in H.
  destruct e as [dt|t op|t|t]; try by eapply exec_failures.
  injection H as <-. by destruct F.
Qed.

Lemma run_failures sched : ∀ s s',
  Inv s → Inv_failures s → run sched s = Some s' → Inv_failures s'.
Proof.
  induction sched as [|e sched IH]; simpl; intros s s' I F H.
  - by simplify_eq.
  - destruct (step s e) as [s1|] eqn:Hs; [|discriminate].
    eauto using step_inv, step_failures.
Qed.

Lemma init_failures sc ec d n : Inv_failures (init sc ec d n).
Proof.
  constructor; simpl.
  - intros _ t p H. apply lookup_replicate in H as [-> _]. done.
  - intros _. split; [done|]. intros t H.
    apply lookup_replicate in H as [? _]. discriminate.
  - intros _. split; [done|]. intros t H.
    apply lookup_replicate in H as [? _]. discriminate.
  - intros t H. apply lookup_replicate in H as [? _]. discriminate.
  - intros _ t p H. apply lookup_replicate in H as [-> _]. done.
  - intros _. split; [done|]. split.
    + intros t p H. apply lookup_replicate in H as [-> _]. done.
    + intros t H. apply lookup_replicate in H as [? _]. discriminate.
Qed.

Lemma reachable_failures sc ec d n s :
  Z.of_nat n < 2 ^ 31 → reachable sc ec d n s → Inv_failures s.
Proof.
  intros Hn [sched H].
  eapply run_failures; [|apply init_failures|exact H]. by apply init_inv.
Qed.

Lemma reachable_handles sc ec d n s :
  reachable sc ec d n s →
  (mSemaphore (objects s) = None ↔ sc = false)
  ∧ (mWakeEvent (objects s) = None ↔ ec = false).
Proof.
  intros [sched H]. revert s H.
  assert (∀ s0 s, run sched s0 = Some s →
    (mSemaphore (objects s) = None ↔ mSemaphore (objects s0) = None)
    ∧ (mWakeEvent (objects s) = None ↔ mWakeEvent (objects s0) = None)) as G.
  { induction sched as [|e sched IH]; simpl; intros s0 s H.
    - by simplify_eq.
    - destruct (step s0 e) as [s1|] eqn:Hs; [|discriminate].
      destruct (IH _ _ H) as [IH1 IH2]. rewrite IH1, IH2. clear IH IH1 IH2 H.
      unfold step in Hs. destruct (halted (objects s0)); [discriminate|].
      destruct e as [dt|t op|t|t];
        try (apply exec_inversion in Hs as (p & a & k & r & _ & _ & Hp & _);
             by apply (handles_effect _ _ _ _ _ _ Hp)).
      by injection Hs as <-. }
  intros s H. destruct (G _ _ H) as [G1 G2]. rewrite G1, G2. simpl.
  by destruct sc, ec.
Qed.

(** X1. Where the failures of the two engines come from.  In every state
    the machine can reach: an exception in the hands of a caller is the
    EPROTO error of the emulated engine, and the semaphore could not be
    created; the process has been ended by std::terminate() only in the
    emulated engine and only if the event could not be created; it has been
    aborted only in the emulated engine built with assertions.  So the
    native-backed engine never throws and never ends the process, and neither
    does the emulated engine with both handles and [NDEBUG]. *)
Theorem failures_need_null_handles sc ec d n s t :
  Z.of_nat n < 2 ^ 31 →
  reachable sc ec d n s →
  (∀ e, threads s !! t = Some (Done (thrown e)) →
     e = EPROTO ∧ engine = XP ∧ sc = false)
  ∧ (halted (objects s) = Some Terminated → engine = XP ∧ ec = false)
  ∧ (halted (objects s) = Some Aborted → engine = XP ∧ NDEBUG = false).
Proof.
  intros Hn Hr.
  pose proof (reachable_failures _ _ _ _ _ Hn Hr)
    as [Fstatus Falive Fassert Fowner Fxp Fvista].
  destruct (reachable_handles _ _ _ _ _ Hr) as [Hsem Hev].
  assert (Hvista : halted (objects s) ≠ None → engine = XP).
  { intros Hh. destruct engine eqn:E; [done|]. by destruct (Fvista eq_refl). }
  split; [|split].
  - intros e Ht. destruct e; [|by destruct (Fowner t)].
    split; [done|]. split.
    + destruct engine eqn:E; [done|].
      destruct (Fvista eq_refl) as (_ & _ & F3). by destruct (F3 t).
    + apply Hsem. destruct (mSemaphore (objects s)) eqn:Hs; [|done].
      by destruct (Fstatus ltac:(done) _ _ Ht).
  - intros Hh. split; [apply Hvista; congruence|].
    apply Hev. destruct (mWakeEvent (objects s)) eqn:He; [|done].
    by destruct (Falive ltac:(done)).
  - intros Hh. split; [apply Hvista; congruence|].
    destruct NDEBUG eqn:E; [|done]. by destruct (Fassert eq_refl).
Qed.

(** X2. The assertion of line 127 of notify_all holds whenever it is
    reached: in every reachable state a thread at that line finds the waiter
    count at zero and goes on to the poll of line 133, with or without
    [NDEBUG]. *)
Theorem notify_all_assertion_holds sc ec d n s t :
  Z.of_nat n < 2 ^ 31 →
  reachable sc ec d n s →
  halted (objects s) = None →
  threads s !! t = Some NA_assert →
  mNumWaiters (objects s) = 0 ∧ moves s t NA_drain (objects s).
Proof.
  intros Hn Hr Hh Ht. pose proof (reachable_inv _ _ _ _ _ Hn Hr) as I.
  pose proof (inv_drained _ I _ _ Ht eq_refl) as Hz. split; [done|].
  unfold moves. rewrite (step_Run _ _ _ Hh Ht). simpl.
  destruct NDEBUG; simpl; [done|]. by rewrite Hz.
Qed.

End Failures.

(** ** What the notifying side can rely on *)

Section Notifying.

Context {cfg : Config}.

Lemma tally_insert f (l : list pc) t p q :
  l !! t = Some p →
  tally f (<[t := q]> l) = tally f l - Z.b2z (f p) + Z.b2z (f q).
Proof.
  revert t. induction l as [|x l IH]; intros [|t] H; simpl in *; try discriminate.
  - injection H as ->. lia.
  - rewrite (IH t H). lia.
Qed.

Lemma tally_bounds f (l : list pc) : 0 ≤ tally f l ≤ Z.of_nat (length l).
Proof.
  induction l as [|x l IH]; simpl; [lia|]. destruct (f x); simpl; lia.
Qed.

Lemma tally_le f g (l : list pc) :
  (∀ p, f p = true → g p = true) → tally f l ≤ tally g l.
Proof.
  intros Hfg. induction l as [|x l IH]; simpl; [lia|].
  destruct (f x) eqn:E; simpl; [rewrite (Hfg _ E); simpl; lia|].
  destruct (g x); simpl; lia.
Qed.

Lemma tally_member f (l : list pc) t p :
  l !! t = Some p → f p = true → 1 ≤ tally f l.
Proof.
  revert t. induction l as [|x l IH]; intros [|t] H Hp; simpl in *; try discriminate.
  - injection H as ->. rewrite Hp. pose proof (tally_bounds f l). simpl. lia.
  - pose proof (IH t H Hp). destruct (f x); simpl; lia.
Qed.

Lemma tally_positive f (l : list pc) :
  1 ≤ tally f l → ∃ t p, l !! t = Some p ∧ f p = true.
Proof.
  induction l as [|x l IH]; simpl; [lia|]. intros H.
  destruct (f x) eqn:E.
  - by exists 0%nat, x.
  - destruct IH as (t & p & Ht & Hp); [simpl in H; lia|]. by exists (S t), p.
Qed.

Lemma waiting_tally (l : list pc) : waiting l = tally parked l.
Proof. induction l as [|x l IH]; simpl; congruence. Qed.

Lemma pending_parked p : pending p = true → parked p = true.
Proof. by destruct p. Qed.

Lemma leaving_parked p : leaving p = true → parked p = true.
Proof. by destruct p. Qed.

Lemma target_in_guard p g : target_of p = Some g → in_guard p = true.
Proof. by destruct p. Qed.

Lemma guard_exclusive s t u p q :
  Inv s →
  threads s !! t = Some p → threads s !! u = Some q →
  in_guard p = true → in_guard q = true → t = u.
Proof.
  intros I Ht Hu Hp Hq.
  pose proof (inv_guard _ I _ _ Ht Hp). pose proof (inv_guard _ I _ _ Hu Hq).
  congruence.
Qed.

(** [targetWaiters] is set once, from the count read at line 138. *)
Lemma target_effect p i a k t e sh sh' r g :
  decode p i = Some (a, k) →
  perform t a e sh = Some (sh', r) →
  target_of (k r) = Some g →
  mNumWaiters sh' = mNumWaiters sh
  ∧ mSemaphore sh' = fst (if in_notify_one_loop p then (mSemaphore sh, true)
                          else ReleaseSemaphore (mSemaphore sh)
                                 (if in_notify_one_loop (k r) then 1 else 0))
  ∧ (target_of p = Some g
     ∨ (p = NO_load ∧ g = int_of (mNumWaiters sh - 1) ∧ -1 < g))
  ∧ (k r = NO_assert g → mNumWaiters sh ≤ g).
Proof.
  intros Hd Hp. decode_cases Hd; perform_cases Hp; flow_cases;
    intros; simplify_eq; bool_arith;
    unfold ReleaseSemaphore, SetEvent in *; simpl in *;
    repeat case_match; simplify_eq; simpl;
    repeat split; auto; try lia; try done.
Qed.

Lemma pending_effect p i a k t e sh sh' r :
  decode p i = Some (a, k) →
  perform t a e sh = Some (sh', r) →
  (pending (k r) = pending p ∧ leaving (k r) = false)
  ∨ (pending p = false ∧ pending (k r) = true ∧ in_guard p = true)
  ∨ (pending p = true ∧ pending (k r) = false ∧ leaving (k r) = true).
Proof.
  intros Hd Hp. decode_cases Hd; perform_cases Hp; flow_cases; auto 10.
Qed.

Lemma leaving_effect p i a k t e sh sh' r :
  decode p i = Some (a, k) →
  perform t a e sh = Some (sh', r) →
  leaving p = true →
  mNumWaiters sh' = int_of (mNumWaiters sh - 1).
Proof.
  intros Hd Hp Hl. decode_cases Hd; by perform_cases Hp.
Qed.

(** A unit leaves the semaphore with a waiter that goes on to line 78, or
    under the guard. *)
Lemma unit_effect p i a k t e sh sh' r :
  decode p i = Some (a, k) →
  perform t a e sh = Some (sh', r) →
  mSemaphore sh' = mSemaphore sh
  ∨ (∃ c, mSemaphore sh = Some c ∧ mSemaphore sh' = Some (c - 1)
          ∧ pending p = true ∧ leaving (k r) = true)
  ∨ in_guard p = true.
Proof.
  intros Hd Hp. decode_cases Hd; perform_cases Hp; flow_cases; auto;
    unfold semaphore_acquire in *; repeat case_match; simplify_eq;
    first [ by right; right | by right; left; eexists ].
Qed.

Lemma released_effect p i a k t e sh sh' r n :
  decode p i = Some (a, k) →
  perform t a e sh = Some (sh', r) →
  k r = NA_release_n n →
  p = NA_release ∧ n = mNumWaiters sh.
Proof.
  intros Hd Hp. decode_cases Hd; perform_cases Hp; flow_cases;
    intros; simplify_eq; done.
Qed.

Lemma notify_all_loop_effect p i a k t e sh sh' r :
  decode p i = Some (a, k) →
  perform t a e sh = Some (sh', r) →
  in_notify_all_loop (k r) = true →
  (in_notify_all_loop p = true ∧ mSemaphore sh' = mSemaphore sh)
  ∨ ∃ n, p = NA_release_n n
         ∧ mSemaphore sh' = fst (ReleaseSemaphore (mSemaphore sh) n).
Proof.
  intros Hd Hp. decode_cases Hd; perform_cases Hp; flow_cases;
    intros; simplify_eq; eauto;
    first
      [ left; split; [done|]; simpl;
        unfold event_acquire in *; repeat case_match; simplify_eq; done
      | right; eexists; split; [done|]; simpl; unfold ReleaseSemaphore;
        repeat case_match; simplify_eq; done ].
Qed.

Lemma release_keeps_units c n (l : list pc) :
  0 ≤ c → tally pending l ≤ n → n ≤ Z.of_nat (length l) →
  Z.of_nat (length l) ≤ 32768 →
  ∃ c', fst (ReleaseSemaphore (Some c) n) = Some c' ∧ tally pending l ≤ c'.
Proof.
  intros Hc Hn Hl Hsmall. unfold ReleaseSemaphore, SEMAPHORE_MAX.
  destruct (Z.ltb_spec 0 n); simpl.
  - destruct (Z.leb_spec (c + n) 65535); simpl; eexists; (split; [done|]); lia.
  - eexists. split; [done|]. lia.
Qed.

Lemma release_one_leaves_unit c :
  0 ≤ c → ∃ c', fst (ReleaseSemaphore (Some c) 1) = Some c' ∧ 1 ≤ c'.
Proof.
  intros Hc. unfold ReleaseSemaphore, SEMAPHORE_MAX. simpl.
  destruct (Z.leb_spec (c + 1) 65535); simpl; eexists; (split; [done|]); lia.
Qed.

(** Every statement of every thread preserves the second invariant. *)
Lemma exec_notify t i e s s' :
  Inv s → Inv_notify s →
  Z.of_nat (length (threads s)) ≤ 32768 →
  exec t i e s = Some s' → Inv_notify s'.
Proof.
  intros I [Ntarget Nreached Nunit Nreleased Nunits] Hsmall H.
  pose proof (exec_inv _ _ _ _ _ I H) as I'.
  apply exec_inversion in H as (p & a & k & r & Ht & Hd & Hp & Hth).
  pose proof (waiters_effect _ _ _ _ _ _ _ _ _ Hd Hp) as W.
  pose proof (pending_effect _ _ _ _ _ _ _ _ _ Hd Hp) as P.
  pose proof (unit_effect _ _ _ _ _ _ _ _ _ Hd Hp) as U.
  pose proof (waiting_bounds (threads s)) as B.
  pose proof (inv_count _ I) as Hcount.
  pose proof (inv_small _ I) as H31.
  assert (Hlt : (t < length (threads s))%nat) by by eapply lookup_lt_Some.
  (* another thread in the guard: the acting thread is not *)
  assert (Hout : ∀ u q, u ≠ t → threads s !! u = Some q → in_guard q = true →
                 in_guard p = false).
  { intros u q Hne Hu Hq. destruct (in_guard p) eqn:E; [|done].
    destruct Hne. exact (guard_exclusive _ _ _ _ _ I Hu Ht Hq E). }
  (* ... so it does not add a waiter, and the count does not grow *)
  assert (Hdown : ∀ u q, u ≠ t → threads s !! u = Some q → in_guard q = true →
                  mNumWaiters (objects s') ≤ mNumWaiters (objects s)
                  ∧ tally pending (threads s') ≤ tally pending (threads s)).
  { intros u q Hne Hu Hq. pose proof (Hout _ _ Hne Hu Hq) as Hg. split.
    - destruct W as [[_ E]|[(_ & _ & Eg & _)|(E1 & _ & E)]]; [lia|congruence|].
      pose proof (waiting_parked _ _ _ Ht E1). rewrite E, int_of_small; lia.
    - rewrite Hth, (tally_insert _ _ _ _ _ Ht).
      destruct P as [[E _]|[(_ & _ & Eg)|(E1 & E2 & _)]]; [|congruence|].
      + rewrite E. lia.
      + rewrite E1, E2. simpl. lia. }
  constructor.
  - (* inv_target *)
    intros u q g Hu Hq. rewrite Hth in Hu.
    apply lookup_after in Hu as [(-> & -> & _)|(Hne & Hu)].
    + destruct (target_effect _ _ _ _ _ _ _ _ _ _ Hd Hp Hq) as (E & _ & [Hg|(-> & -> & Hg)] & _).
      * rewrite E. by eapply Ntarget.
      * rewrite E. rewrite int_of_small in *; lia.
    + destruct (Ntarget _ _ _ Hu Hq) as [G1 G2].
      destruct (Hdown _ _ Hne Hu (target_in_guard _ _ Hq)). lia.
  - (* inv_reached *)
    intros u g Hu. rewrite Hth in Hu.
    apply lookup_after in Hu as [(-> & Hk & _)|(Hne & Hu)].
    + symmetry in Hk.
      assert (Hq : target_of (k r) = Some g) by by rewrite Hk.
      destruct (target_effect _ _ _ _ _ _ _ _ _ _ Hd Hp Hq) as (E & _ & _ & Hle).
      rewrite E. by apply Hle.
    + pose proof (Nreached _ _ Hu).
      destruct (Hdown _ _ Hne Hu eq_refl). lia.
  - (* inv_unit *)
    intros u q g Hu Hloop Hq Hg. rewrite Hth in Hu.
    apply lookup_after in Hu as [(-> & -> & _)|(Hne & Hu)].
    + destruct (target_effect _ _ _ _ _ _ _ _ _ _ Hd Hp Hq) as (E & Es & Hfrom & _).
      rewrite Hloop in Es. destruct (in_notify_one_loop p) eqn:Hp0.
      * simpl in Es. destruct Hfrom as [Hfrom|(-> & _)]; [|discriminate].
        rewrite E in Hg.
        destruct (Nunit _ _ _ Ht Hp0 Hfrom Hg) as [N|[N|(w & x & Hw & Hx)]].
        -- left. congruence.
        -- right. left. by rewrite Es.
        -- right. right. exists w, x. split; [|done].
           rewrite Hth, list_lookup_insert_ne; [done|].
           intros <-. simplify_eq. by destruct p.
      * destruct (mSemaphore (objects s)) as [c|] eqn:Hs.
        -- destruct (release_one_leaves_unit c (inv_semaphore _ I _ Hs))
             as (c' & Ec & Hc).
           right. left. exists c'. by rewrite Es, Ec.
        -- left. by rewrite Es.
    + pose proof (target_in_guard _ _ Hq) as Hgq.
      destruct (Hdown _ _ Hne Hu Hgq) as [Hd1 _].
      pose proof (Hout _ _ Hne Hu Hgq) as Hgp.
      destruct (Ntarget _ _ _ Hu Hq) as [_ Hmax].
      destruct (Nunit _ _ _ Hu Hloop Hq ltac:(lia)) as [N|[N|(w & x & Hw & Hx)]].
      * left. destruct U as [U|[(c & U1 & _)|U]]; congruence.
      * destruct U as [U|[(c & U1 & U2 & U3 & U4)|U]]; [|  |congruence].
        -- right. left. by rewrite U.
        -- right. right. exists t, (k r).
           by rewrite Hth, list_lookup_insert_eq.
      * destruct (decide (w = t)) as [->|Hw'].
        -- simplify_eq.
           pose proof (leaving_effect _ _ _ _ _ _ _ _ _ Hd Hp Hx) as E.
           pose proof (waiting_parked _ _ _ Ht (leaving_parked _ Hx)).
           rewrite int_of_small in E; lia.
        -- right. right. exists w, x.
           by rewrite Hth, list_lookup_insert_ne.
  - (* inv_released *)
    intros u n Hu. rewrite Hth in Hu. rewrite Hth at 2. rewrite length_insert.
    apply lookup_after in Hu as [(-> & Hk & _)|(Hne & Hu)].
    + symmetry in Hk.
      destruct (released_effect _ _ _ _ _ _ _ _ _ _ Hd Hp Hk) as [-> ->].
      rewrite Hth, (tally_insert _ _ _ _ _ Ht), Hk. simpl.
      pose proof (tally_le pending parked (threads s) pending_parked).
      rewrite <- waiting_tally in *. lia.
    + destruct (Nreleased _ _ Hu) as [G1 G2].
      destruct (Hdown _ _ Hne Hu eq_refl). lia.
  - (* inv_units *)
    intros u q Hu Hloop. rewrite Hth in Hu.
    apply lookup_after in Hu as [(-> & -> & _)|(Hne & Hu)].
    + assert (Etally : tally pending (threads s') = tally pending (threads s)).
      { rewrite Hth, (tally_insert _ _ _ _ _ Ht).
        destruct p; simpl in Hd; try discriminate Hd;
          destruct i; try discriminate Hd; destruct (k r);
          simpl in *; try discriminate Hloop; lia. }
      rewrite Etally.
      destruct (notify_all_loop_effect _ _ _ _ _ _ _ _ _ Hd Hp Hloop)
        as [[Hp0 Es]|(n & -> & Es)].
      * rewrite Es. by eapply Nunits.
      * destruct (Nreleased _ _ Ht) as [G1 G2].
        destruct (mSemaphore (objects s)) as [c|] eqn:Hs; [|by left].
        destruct (release_keeps_units c n _ (inv_semaphore _ I _ Hs) G1 G2 Hsmall)
          as (c' & Ec & Hc).
        right. exists c'. by rewrite Es, Ec.
    + assert (Hgq : in_guard q = true) by by destruct q.
      destruct (Hdown _ _ Hne Hu Hgq) as [_ Hd2].
      pose proof (Hout _ _ Hne Hu Hgq) as Hgp.
      destruct (Nunits _ _ Hu Hloop) as [N|(c & N & Hc)].
      * left. destruct U as [U|[(c & U1 & _)|U]]; congruence.
      * destruct U as [U|[(c0 & U1 & U2 & U3 & U4)|U]]; [| |congruence].
        -- right. exists c. rewrite U. split; [done|lia].
        -- right. exists (c0 - 1). split; [done|]. simplify_eq.
           rewrite Hth, (tally_insert _ _ _ _ _ Ht), U3.
           destruct (k r); simpl in *; try discriminate U4. lia.
Qed.

Lemma step_length s e s' :
  step s e = Some s' → length (threads s') = length (threads s).
Proof.
  unfold step. destruct (halted (objects s)); [discriminate|].
  destruct e as [dt|t op|t|t]; intros H;
    try (apply exec_inversion in H as (p & a & k & r & _ & _ & _ & ->);
         by rewrite length_insert).
  by injection H as <-.
Qed.

Lemma step_notify s e s' :
  Inv s → Inv_notify s →
  Z.of_nat (length (threads s)) ≤ 32768 →
  step s e = Some s' → Inv_notify s'.
Proof.
  intros I N Hsmall H. unfold step in H.
  destruct (halted (objects s)); [discriminate|].
  destruct e as [dt|t op|t|t]; try by eapply exec_notify.
  injection H as <-. by destruct N.
Qed.

Lemma run_notify sched : ∀ s s',
  Inv s → Inv_notify s →
  Z.of_nat (length (threads s)) ≤ 32768 →
  run sched s = Some s' → Inv_notify s'.
Proof.
  induction sched as [|e sched IH]; simpl; intros s s' I N Hsmall H.
  - by simplify_eq.
  - destruct (step s e) as [s1|] eqn:Hs; [|discriminate].
    apply (IH s1); [by eapply step_inv|by eapply step_notify| |done].
    by rewrite (step_length _ _ _ Hs).
Qed.

Lemma init_notify sc ec d n : Inv_notify (init sc ec d n).
Proof.
  constructor; simpl.
  - intros t p g H. apply lookup_replicate in H as [-> _]. discriminate.
  - intros t g H. apply lookup_replicate in H as [? _]. discriminate.
  - intros t p g H. apply lookup_replicate in H as [-> _]. discriminate.
  - intros t m H. apply lookup_replicate in H as [? _]. discriminate.
  - intros t p H. apply lookup_replicate in H as [-> _]. discriminate.
Qed.

Lemma reachable_notify sc ec d n s :
  Z.of_nat n ≤ 32768 → reachable sc ec d n s → Inv_notify s.
Proof.
  intros Hn [sched H].
  eapply run_notify; [|apply init_notify| |exact H].
  - apply init_inv. lia.
  - simpl. by rewrite length_replicate.
Qed.

(** A registered waiter other than the thread in the guard can take its next
    step as soon as the semaphore has a unit for it, has no object behind
    its handle, or the waiter is already back from its wait. *)
Lemma waiter_can_run s t u p q :
  Inv s → halted (objects s) = None →
  threads s !! t = Some p → in_guard p = true → u ≠ t →
  threads s !! u = Some q → parked q = true →
  (leaving q = true
   ∨ mSemaphore (objects s) = None
   ∨ ∃ c, mSemaphore (objects s) = Some c ∧ 1 ≤ c) →
  is_Some (step s (Run u)).
Proof.
  intros I Hh Ht Hp Hne Hu Hq Hs. rewrite (step_Run _ _ _ Hh Hu).
  pose proof (inv_lock _ I _ _ Hu) as Hl. unfold lock_ok in Hl.
  destruct q; simpl in *; try discriminate Hq; try done.
  - destruct Hne. exact (guard_exclusive _ _ _ _ _ I Hu Ht eq_refl Hp).
  - rewrite Hl. simpl. by rewrite Nat.eqb_refl.
  - destruct Hs as [Hs|[Hs|(c & Hs & Hc)]]; [done| |]; rewrite Hs; simpl; [done|].
    unfold semaphore_acquire. by destruct (Z.ltb_spec 0 c); [|lia].
Qed.

(** X3. notify_one that found waiters: its target is the count it read less
    one and is not negative; while it runs the count never exceeds the value
    it read; and it gets past the loop of line 142 only with the count at or
    below its target, that is, after at least one waiter has left. *)
Theorem notify_one_waits_for_a_waiter sc ec d n s t p g :
  Z.of_nat n ≤ 32768 →
  reachable sc ec d n s →
  threads s !! t = Some p →
  target_of p = Some g →
  0 ≤ g
  ∧ mNumWaiters (objects s) ≤ g + 1
  ∧ (p = NO_assert g → mNumWaiters (objects s) ≤ g)
  ∧ mMutex (objects s) = Some (t, 1%nat).
Proof.
  intros Hn Hr Ht Hg.
  pose proof (reachable_notify _ _ _ _ _ Hn Hr) as N.
  assert (I : Inv s) by (eapply reachable_inv; [|exact Hr]; lia).
  destruct (inv_target _ N _ _ _ Ht Hg) as [G1 G2].
  repeat split; try done.
  - intros ->. by apply (inv_reached _ N t).
  - apply (inv_guard _ I _ _ Ht). by eapply target_in_guard.
Qed.

(** X4. No wake-up of notify_one is lost: while notify_one is in its loop
    and the count has not yet dropped to its target, some registered waiter
    can take its next step, because the unit released at line 141 is still
    on the semaphore, or there is no semaphore behind the handle, or a waiter
    is back from its wait and about to decrement the count. *)
Theorem notify_one_wakes_a_waiter sc ec d n s t p g :
  Z.of_nat n ≤ 32768 →
  reachable sc ec d n s →
  halted (objects s) = None →
  threads s !! t = Some p →
  in_notify_one_loop p = true →
  target_of p = Some g →
  g < mNumWaiters (objects s) →
  (mSemaphore (objects s) = None
   ∨ (∃ c, mSemaphore (objects s) = Some c ∧ 1 ≤ c)
   ∨ ∃ u q, threads s !! u = Some q ∧ leaving q = true)
  ∧ ∃ u q, u ≠ t ∧ threads s !! u = Some q ∧ parked q = true
           ∧ is_Some (step s (Run u)).
Proof.
  intros Hn Hr Hh Ht Hloop Hg Hcount.
  pose proof (reachable_notify _ _ _ _ _ Hn Hr) as N.
  assert (I : Inv s) by (eapply reachable_inv; [|exact Hr]; lia).
  pose proof (target_in_guard _ _ Hg) as Hguard.
  pose proof (inv_unit _ N _ _ _ Ht Hloop Hg Hcount) as Hunit.
  split; [done|].
  assert (Hnot : ∀ u q, threads s !! u = Some q → parked q = true → u ≠ t).
  { intros u q Hu Hq ->. simplify_eq. by destruct p. }
  destruct Hunit as [Hs|[Hs|(w & x & Hw & Hx)]].
  - destruct (inv_target _ N _ _ _ Ht Hg) as [G1 _].
    destruct (tally_positive parked (threads s)) as (u & q & Hu & Hq).
    { rewrite <- waiting_tally, <- (inv_count _ I). lia. }
    exists u, q. repeat split; eauto.
    apply (waiter_can_run s t u p q I Hh Ht Hguard (Hnot _ _ Hu Hq) Hu Hq).
    by right; left.
  - destruct (inv_target _ N _ _ _ Ht Hg) as [G1 _].
    destruct (tally_positive parked (threads s)) as (u & q & Hu & Hq).
    { rewrite <- waiting_tally, <- (inv_count _ I). lia. }
    exists u, q. repeat split; eauto.
    apply (waiter_can_run s t u p q I Hh Ht Hguard (Hnot _ _ Hu Hq) Hu Hq).
    by right; right.
  - pose proof (leaving_parked _ Hx) as Hq.
    exists w, x. repeat split; eauto.
    apply (waiter_can_run s t w p x I Hh Ht Hguard (Hnot _ _ Hw Hq) Hw Hq).
    by left.
Qed.

(** X5. notify_all leaves no registered waiter without a unit: while
    notify_all is in the loop of lines 121-126, the semaphore (if there is
    one behind the handle) holds at least as many units as there are waiters
    that are not yet back from their wait, so every waiter blocked at line
    76 can complete its wait at once, whatever its time-out. *)
Theorem notify_all_has_a_unit_for_each sc ec d n s t p :
  Z.of_nat n ≤ 32768 →
  reachable sc ec d n s →
  halted (objects s) = None →
  threads s !! t = Some p →
  in_notify_all_loop p = true →
  (mSemaphore (objects s) = None
   ∨ ∃ c, mSemaphore (objects s) = Some c ∧ tally pending (threads s) ≤ c)
  ∧ ∀ u time k, threads s !! u = Some (W_block time k) →
      is_Some (step s (Run u)).
Proof.
  intros Hn Hr Hh Ht Hloop.
  pose proof (reachable_notify _ _ _ _ _ Hn Hr) as N.
  assert (I : Inv s) by (eapply reachable_inv; [|exact Hr]; lia).
  pose proof (inv_units _ N _ _ Ht Hloop) as Hunits.
  split; [done|]. intros u time k Hu.
  assert (Hguard : in_guard p = true) by by destruct p.
  assert (Hne : u ≠ t) by (intros ->; simplify_eq; discriminate).
  apply (waiter_can_run s t u p _ I Hh Ht Hguard Hne Hu eq_refl). right.
  destruct Hunits as [Hs|(c & Hs & Hc)]; [by left|].
  right. exists c. split; [done|].
  pose proof (tally_member pending _ _ _ Hu eq_refl). lia.
Qed.

End Notifying.

(** ** Locks, results and the client's state *)

Section Discipline.

Context {cfg : Config}.

(** X6. The guard on [mMutex]: at most one thread at a time is inside
    notify_one, inside notify_all or at the increment of line 73; the
    recursive mutex is never entered a second time; and a thread outside
    these regions, be it in client code, blocked in its wait or on its way
    out of wait_impl, does not own it. *)
Theorem guard_is_exclusive sc ec d n s :
  Z.of_nat n < 2 ^ 31 →
  reachable sc ec d n s →
  (∀ t u p q, threads s !! t = Some p → threads s !! u = Some q →
     in_guard p = true → in_guard q = true → t = u)
  ∧ (∀ t depth, mMutex (objects s) = Some (t, depth) →
     depth = 1%nat ∧ ∃ p, threads s !! t = Some p ∧ in_guard p = true)
  ∧ (∀ t p depth, threads s !! t = Some p → in_guard p = false →
     mMutex (objects s) ≠ Some (t, depth)).
Proof.
  intros Hn Hr. pose proof (reachable_inv _ _ _ _ _ Hn Hr) as I.
  split; [|split].
  - intros t u p q Ht Hu Hp Hq. by eapply guard_exclusive.
  - intros t depth Hm. destruct (inv_owner _ I _ _ Hm) as (p & Ht & Hp).
    pose proof (inv_guard _ I _ _ Ht Hp). split; [congruence|eauto].
  - intros t p depth Ht Hp Hm.
    destruct (inv_owner _ I _ _ Hm) as (q & Hq & Hg). congruence.
Qed.

(** X7. The caller's lock, in either engine: every waiting call, whether it
    returns a value or throws, hands control back with the caller owning its
    lock; and from the wait on the semaphore or on the native condition
    variable up to the re-acquisition the thread does not own the lock. *)
Theorem waits_return_with_lock sc ec d n s t p :
  Z.of_nat n < 2 ^ 31 →
  reachable sc ec d n s →
  threads s !! t = Some p →
  (∀ r, p = Done r → r ≠ returned_notify → lock_owner (objects s) = Some t)
  ∧ (holds_lock p = Some false → lock_owner (objects s) ≠ Some t)
  ∧ (holds_lock p = Some true → lock_owner (objects s) = Some t).
Proof.
  intros Hn Hr Ht. pose proof (reachable_inv _ _ _ _ _ Hn Hr) as I.
  pose proof (inv_lock _ I _ _ Ht) as Hl. unfold lock_ok in Hl.
  split; [|split].
  - intros r -> Hr'. by destruct r.
  - intros E. by rewrite E in Hl.
  - intros E. by rewrite E in Hl.
Qed.

Lemma pred_value_effect p i a k t e sh sh' r b :
  decode p i = Some (a, k) →
  perform t a e sh = Some (sh', r) →
  k r = Done (returned_pred_value b) →
  data sh' = data sh
  ∧ ((∃ abs_time pred, p = WU_test abs_time pred ∧ b = true
                        ∧ pred (data sh) = true)
     ∨ (∃ pred, p = WU_final pred ∧ b = pred (data sh))).
Proof.
  intros Hd Hp. decode_cases Hd; perform_cases Hp; flow_cases;
    intros; simplify_eq; (split; [done|]); bool_arith.
  all: first
    [ left; do 2 eexists; split; [done|]; split; [done|];
      match goal with |- ?f ?x = true => by destruct (f x) end
    | right; eexists; split; [done|];
      match goal with |- _ = ?f ?x => by destruct (f x) end ].
Qed.

Lemma final_effect p i a k t e sh sh' r pred :
  decode p i = Some (a, k) →
  perform t a e sh = Some (sh', r) →
  k r = WU_final pred →
  ∃ abs_time,
    p = W_relock WAIT_TIMEOUT (k_wait_until_pred abs_time pred)
    ∨ p = V_reenter 0 (k_wait_until_pred abs_time pred).
Proof.
  intros Hd Hp. decode_cases Hd; perform_cases Hp; flow_cases;
    intros; simplify_eq;
    repeat match goal with
    | H : negb _ = false |- _ => apply negb_false_iff in H
    end; bool_arith; subst; eauto.
Qed.

Lemma status_result_effect p i a k t e sh sh' r st :
  decode p i = Some (a, k) →
  perform t a e sh = Some (sh', r) →
  k r = Done (returned_status st) →
  (p = W_relock WAIT_OBJECT_0 k_wait_for ∧ st = no_timeout)
  ∨ (p = W_relock WAIT_TIMEOUT k_wait_for ∧ st = timeout)
  ∨ (∃ success, p = V_reenter success k_wait_for
                ∧ st = if success =? 0 then timeout else no_timeout).
Proof.
  intros Hd Hp. decode_cases Hd; perform_cases Hp; flow_cases;
    intros; simplify_eq; bool_arith; subst; eauto;
    right; right; eexists; (split; [done|]);
    match goal with |- context [?x =? 0] => by destruct (x =? 0) end.
Qed.

(** X8. What the timed waits hand back, in either engine.  A thread arrives
    at a returned predicate value only from a test of the predicate, made
    with the lock it still holds: [true] from the test of line 179 finding
    the predicate true, or the value found by the test of line 183.  It
    arrives at the test of line 183 only from a wait that reported a
    time-out.  And a status is handed back only out of wait_impl: no_timeout
    after a wake-up, timeout after a time-out. *)
Theorem timed_wait_results sc ec d n s t s' :
  Z.of_nat n < 2 ^ 31 →
  reachable sc ec d n s →
  step s (Run t) = Some s' ∨ step s (Expire t) = Some s' →
  (∀ b, threads s' !! t = Some (Done (returned_pred_value b)) →
     lock_owner (objects s') = Some t
     ∧ ∃ pred, pred (data (objects s')) = b
        ∧ ((∃ abs_time, threads s !! t = Some (WU_test abs_time pred) ∧ b = true)
           ∨ threads s !! t = Some (WU_final pred)))
  ∧ (∀ pred, threads s' !! t = Some (WU_final pred) →
     ∃ abs_time,
       threads s !! t
         = Some (W_relock WAIT_TIMEOUT (k_wait_until_pred abs_time pred))
       ∨ threads s !! t = Some (V_reenter 0 (k_wait_until_pred abs_time pred)))
  ∧ (∀ st, threads s' !! t = Some (Done (returned_status st)) →
     lock_owner (objects s') = Some t
     ∧ ((threads s !! t = Some (W_relock WAIT_OBJECT_0 k_wait_for)
         ∧ st = no_timeout)
        ∨ (threads s !! t = Some (W_relock WAIT_TIMEOUT k_wait_for)
           ∧ st = timeout)
        ∨ ∃ success, threads s !! t = Some (V_reenter success k_wait_for)
                     ∧ st = if success =? 0 then timeout else no_timeout)).
Proof.
  intros Hn Hr Hs. pose proof (reachable_inv _ _ _ _ _ Hn Hr) as I.
  assert (I' : Inv s') by (destruct Hs; by eapply step_inv).
  assert (∃ x, exec t in_run x s = Some s') as [x Hx].
  { unfold step in Hs. destruct (halted (objects s)); [by destruct Hs|].
    destruct Hs; eauto. }
  apply exec_inversion in Hx as (p & a & k & r & Ht & Hd & Hp & Hth).
  assert (Hk : threads s' !! t = Some (k r)).
  { rewrite Hth. apply list_lookup_insert_eq. by eapply lookup_lt_Some. }
  split; [|split].
  - intros b Hb. split; [apply (inv_lock _ I' _ _ Hb)|].
    rewrite Hk in Hb. injection Hb as Hb.
    destruct (pred_value_effect _ _ _ _ _ _ _ _ _ _ Hd Hp Hb)
      as [E [(abs & pred & -> & -> & Hv)|(pred & -> & ->)]];
      exists pred; rewrite E; eauto.
  - intros pred Hf. rewrite Hk in Hf. injection Hf as Hf.
    destruct (final_effect _ _ _ _ _ _ _ _ _ _ Hd Hp Hf) as (abs & [->| ->]);
      eauto.
  - intros st Hst. split; [apply (inv_lock _ I' _ _ Hst)|].
    rewrite Hk in Hst. injection Hst as Hst.
    destruct (status_result_effect _ _ _ _ _ _ _ _ _ _ Hd Hp Hst)
      as [[-> ->]|[[-> ->]|(success & -> & ->)]]; eauto.
Qed.

Lemma overdue_enter_until h c s t abs_time s' :
  past h (clock (objects s)) abs_time →
  (c = call_wait_until abs_time
   ∨ ∃ pred, c = call_wait_until_pred abs_time pred) →
  step s (Client t (op_call c)) = Some s' →
  ∃ p, threads s' !! t = Some p ∧ overdue h (clock (objects s')) p.
Proof.
  intros Habs Hc Hs. unfold step in Hs.
  destruct (halted (objects s)); [discriminate|].
  apply exec_inversion in Hs as (q & a & k & r & Hu & Hd & Hp & Hth).
  rewrite Hth, (clock_effect _ _ _ _ _ _ Hp). exists (k r). split.
  - apply list_lookup_insert_eq. by eapply lookup_lt_Some.
  - destruct q; simpl in Hd; try discriminate Hd; simplify_eq;
      destruct Hc as [->|[pred ->]]; simpl; done.
Qed.

(** X9. wait_until with a deadline that is not after the clock, and not so
    far before it that the millisecond count of the difference leaves the
    64-bit range by the time of the wait, with or without a predicate and in
    either engine: every wait the call makes on the semaphore or on the
    native condition variable is made with a time-out of zero milliseconds,
    and so does not block. *)
Theorem wait_until_past_deadline_polls s t c abs_time s1 sched s2 :
  abs_time ≤ clock (objects s) →
  - 2 ^ 63 ≤ (abs_time - clock (objects s2)) * ratio_num tick_num tick_den →
  (c = call_wait_until abs_time
   ∨ ∃ pred, c = call_wait_until_pred abs_time pred) →
  step s (Client t (op_call c)) = Some s1 →
  Forall (quiet t) sched →
  run sched s1 = Some s2 →
  ∀ time k,
    threads s2 !! t = Some (W_block time k)
    ∨ threads s2 !! t = Some (V_parked time k) →
    time = 0 ∧ (halted (objects s2) = None → is_Some (step s2 (Run t))).
Proof.
  intros Habs Hlow Hc Hs Hq Hrun.
  destruct (overdue_enter_until (clock (objects s2)) _ _ _ _ _
              (conj Habs Hlow) Hc Hs) as (p1 & Ht1 & Ho1).
  destruct (overdue_run _ _ _ _ _ Hq Ht1 Ho1 Hrun) as (p2 & Ht2 & Ho2).
  intros time k [Ht|Ht]; rewrite Ht2 in Ht; simplify_eq;
    destruct Ho2 as [-> _]; (split; [done|]); intros Hh;
    rewrite (step_Run _ _ _ Hh Ht2); simpl; [|done].
  destruct (mSemaphore (objects s2)) as [x|]; simpl; [|done].
  unfold semaphore_acquire. by destruct (0 <? x).
Qed.

Lemma run_data_effect p a k t e sh sh' r :
  decode p in_run = Some (a, k) →
  perform t a e sh = Some (sh', r) →
  data sh' = data sh
  ∧ (notifying p = true → lock_owner sh' = lock_owner sh).
Proof.
  intros Hd Hp.
  destruct p; simpl in Hd; try discriminate Hd;
    try match type of Hd with
        | (if ?b then _ else _) = _ => destruct b eqn:?
        end; simplify_eq; perform_cases Hp; simpl; split; try done.
Qed.

(** X10. What the classes leave alone: no statement of any wait or notify
    operation writes the client's data or moves the clock, and no statement
    of notify_one or notify_all, in either engine, touches the caller's
    lock. *)
Theorem operations_leave_client_state s t s' p :
  threads s !! t = Some p →
  step s (Run t) = Some s' ∨ step s (Expire t) = Some s' →
  data (objects s') = data (objects s)
  ∧ clock (objects s') = clock (objects s)
  ∧ (notifying p = true →
     lock_owner (objects s') = lock_owner (objects s)).
Proof.
  intros Ht Hs.
  assert (∃ x, exec t in_run x s = Some s') as [x Hx].
  { unfold step in Hs. destruct (halted (objects s)); [by destruct Hs|].
    destruct Hs; eauto. }
  apply exec_inversion in Hx as (q & a & k & r & Hu & Hd & Hp & Hth).
  simplify_eq.
  destruct (run_data_effect _ _ _ _ _ _ _ _ Hd Hp) as [E1 E2].
  split; [done|]. split; [by eapply clock_effect|done].
Qed.

End Discipline.

(** ** Durations and calls that find nothing to do *)

Section Composition.

Context {cfg : Config}.

Lemma wait_for_timeout_max count_ms :
  wait_for_timeout count_ms = Z.max 0 count_ms mod 2 ^ 32.
Proof.
  unfold wait_for_timeout, DWORD_of.
  destruct (Z.ltb_spec count_ms 0); f_equal; lia.
Qed.

Lemma in_wait_for_wait_impl given : in_wait_for given (wait_impl given k_wait_for).
Proof. unfold wait_impl. by destruct engine. Qed.

Lemma in_wait_for_effect given p a k r :
  decode p in_run = Some (a, k) →
  in_wait_for given p → in_wait_for given (k r).
Proof.
  intros Hd Hi.
  destruct p; simpl in Hi; try done; simpl in Hd; try discriminate Hd;
    simplify_eq;
    try match type of Hi with _ ∧ _ => destruct Hi as [? ?] end; subst;
    try (by simpl; auto);
    try (by repeat case_match; simpl; auto).
  unfold wait_impl_result. by repeat case_match.
Qed.

Lemma in_wait_for_exec given t u i e s s' p :
  (u = t → i = in_run) →
  threads s !! t = Some p → in_wait_for given p →
  exec u i e s = Some s' →
  ∃ p', threads s' !! t = Some p' ∧ in_wait_for given p'.
Proof.
  intros Hi Ht Ho H.
  apply exec_inversion in H as (q & a & k & r & Hu & Hd & Hp & Hth).
  rewrite Hth. destruct (decide (u = t)) as [->|Hne].
  - rewrite (Hi eq_refl) in Hd. simplify_eq. exists (k r). split.
    + apply list_lookup_insert_eq. by eapply lookup_lt_Some.
    + by eapply in_wait_for_effect.
  - exists p. by rewrite list_lookup_insert_ne by done.
Qed.

Lemma in_wait_for_run given t sched : ∀ s s' p,
  Forall (quiet t) sched →
  threads s !! t = Some p → in_wait_for given p →
  run sched s = Some s' →
  ∃ p', threads s' !! t = Some p' ∧ in_wait_for given p'.
Proof.
  induction sched as [|e sched IH]; simpl; intros s s' p Hq Ht Ho H.
  - simplify_eq. eauto.
  - destruct (step s e) as [s1|] eqn:Hs; [|discriminate].
    apply Forall_cons in Hq as [Hq1 Hq2].
    assert (∃ p1, threads s1 !! t = Some p1 ∧ in_wait_for given p1)
      as (p1 & Ht1 & Ho1).
    { unfold step in Hs. destruct (halted (objects s)); [discriminate|].
      destruct e as [dt|u op|u|u]; simpl in Hq1.
      - injection Hs as <-. simpl. eauto.
      - eapply in_wait_for_exec; [| | |exact Hs]; eauto. intros; done.
      - eapply in_wait_for_exec; [| | |exact Hs]; eauto.
      - eapply in_wait_for_exec; [| | |exact Hs]; eauto. }
    eauto.
Qed.

Lemma wait_for_enters s t rel_time s1 :
  step s (Client t (op_call (call_wait_for rel_time))) = Some s1 →
  threads s1 !! t
  = Some (wait_impl
            (wait_for_timeout
               (duration_cast_milliseconds tick_num tick_den rel_time))
            k_wait_for).
Proof.
  intros Hs. unfold step in Hs.
  destruct (halted (objects s)); [discriminate|].
  apply exec_inversion in Hs as (q & a & k & r & Hu & Hd & Hp & Hth).
  rewrite Hth.
  assert (k r = wait_for rel_time k_wait_for) as ->.
  { destruct q; simpl in Hd; try discriminate Hd; by simplify_eq. }
  apply list_lookup_insert_eq. by eapply lookup_lt_Some.
Qed.

Lemma wait_for_timeout_passed s t rel_time s1 sched s2 :
  step s (Client t (op_call (call_wait_for rel_time))) = Some s1 →
  Forall (quiet t) sched →
  run sched s1 = Some s2 →
  ∀ time k,
    threads s2 !! t = Some (W_block time k)
    ∨ threads s2 !! t = Some (V_parked time k) →
    time = wait_for_timeout
             (duration_cast_milliseconds tick_num tick_den rel_time).
Proof.
  intros Hs Hq Hrun time k Ht.
  pose proof (wait_for_enters _ _ _ _ Hs) as Ht1.
  destruct (in_wait_for_run _ _ _ _ _ _ Hq Ht1 (in_wait_for_wait_impl _) Hrun)
    as (p2 & Ht2 & Hi2).
  destruct Ht as [Ht|Ht]; rewrite Ht2 in Ht; simplify_eq; by destruct Hi2.
Qed.

(** C10. wait_for(lock, rel_time), in either engine, clamps the millisecond
    count of the duration at zero from below only and hands its low 32 bits
    to wait_impl, which passes them to every wait the call makes on the
    semaphore or on the native condition variable.  So a count that is not
    negative and is congruent to 0xFFFFFFFF modulo 2^32 is passed as
    INFINITE, and a count of 2^32 or more is passed as the time-out of the
    count 2^32 lower, which is shorter than the count.  What is passed
    decides whether the wait can time out: with no unit on the semaphore,
    the time-out of the wait elapses if and only if the value passed is not
    INFINITE. *)
Theorem wait_for_timeout_wraps s t rel_time ms s1 sched s2 :
  ms = duration_cast_milliseconds tick_num tick_den rel_time →
  step s (Client t (op_call (call_wait_for rel_time))) = Some s1 →
  Forall (quiet t) sched →
  run sched s1 = Some s2 →
  threads s1 !! t = Some (wait_impl (Z.max 0 ms mod 2 ^ 32) k_wait_for)
  ∧ (∀ time k,
       threads s2 !! t = Some (W_block time k)
       ∨ threads s2 !! t = Some (V_parked time k) →
       time = Z.max 0 ms mod 2 ^ 32
       ∧ (0 ≤ ms → ms mod 2 ^ 32 = 4294967295 → time = INFINITE)
       ∧ (2 ^ 32 ≤ ms → time < ms ∧ time = (ms - 2 ^ 32) mod 2 ^ 32))
  ∧ (∀ time k x,
       threads s2 !! t = Some (W_block time k) →
       mSemaphore (objects s2) = Some x → x ≤ 0 →
       halted (objects s2) = None →
       is_Some (step s2 (Expire t)) ↔ time ≠ INFINITE)
  ∧ (∀ time k,
       threads s2 !! t = Some (V_parked time k) →
       halted (objects s2) = None →
       is_Some (step s2 (Expire t)) ↔ time ≠ INFINITE).
Proof.
  intros -> Hs Hq Hrun.
  set (ms := duration_cast_milliseconds tick_num tick_den rel_time).
  split; [|split; [|split]].
  - rewrite <- wait_for_timeout_max. by apply (wait_for_enters s).
  - intros time k Ht.
    rewrite (wait_for_timeout_passed _ _ _ _ _ _ Hs Hq Hrun _ _ Ht).
    fold ms. rewrite wait_for_timeout_max.
    split; [done|]. split.
    + intros H0 Hmod. rewrite Z.max_r by lia. by rewrite Hmod.
    + intros Hbig. rewrite Z.max_r by lia.
      pose proof (Z.mod_pos_bound ms (2 ^ 32) ltac:(lia)).
      split; [lia|].
      replace ms with (ms - 2 ^ 32 + 1 * 2 ^ 32) at 1 by lia.
      by rewrite Z.mod_add by lia.
  - intros time k x Ht Hx Hle Hh. unfold step, exec. rewrite Hh, Ht. simpl.
    rewrite Hx. simpl. unfold semaphore_acquire.
    destruct (Z.ltb_spec 0 x); [lia|].
    destruct (Z.eqb_spec time 0) as [->|]; simpl.
    + split; [done|]. intros _. by eexists.
    + destruct (Z.eqb_spec time INFINITE) as [->|]; simpl.
      * split; [by intros [? ?]|done].
      * split; [done|]. intros _. by eexists.
  - intros time k Ht Hh. unfold step, exec. rewrite Hh, Ht. simpl.
    destruct (Z.eqb_spec time INFINITE) as [->|]; simpl.
    + split; [by intros [? ?]|done].
    + split; [done|]. intros _. by eexists.
Qed.

(** X11. wait_for(lock, rel_time), in either engine, for a duration that is
    not negative, whose millisecond count stays within the 64-bit range of
    the duration arithmetic and comes to less than 0xFFFFFFFF: the time-out
    handed to wait_impl, and passed to every wait the call makes, is the
    duration in whole milliseconds, rounded down: never longer than the
    duration, short of it by less than a millisecond, and never INFINITE.  A
    duration under one millisecond becomes the zero time-out. *)
Theorem wait_for_rounds_down s t rel_time s1 sched s2 :
  0 ≤ rel_time →
  rel_time * ratio_num tick_num tick_den < 2 ^ 63 →
  rel_time * (Z.pos tick_num * 1000) < 4294967295 * Z.pos tick_den →
  step s (Client t (op_call (call_wait_for rel_time))) = Some s1 →
  Forall (quiet t) sched →
  run sched s1 = Some s2 →
  ∃ passed,
    threads s1 !! t = Some (wait_impl passed k_wait_for)
    ∧ (∀ time k,
         threads s2 !! t = Some (W_block time k)
         ∨ threads s2 !! t = Some (V_parked time k) → time = passed)
    ∧ 0 ≤ passed
    ∧ passed * Z.pos tick_den ≤ rel_time * (Z.pos tick_num * 1000)
    ∧ rel_time * (Z.pos tick_num * 1000) < (passed + 1) * Z.pos tick_den
    ∧ passed ≠ INFINITE
    ∧ (rel_time * (Z.pos tick_num * 1000) < Z.pos tick_den → passed = 0).
Proof.
  intros Hc Hfit Hlt Hs Hq Hrun.
  pose proof (ratio_num_pos tick_num tick_den) as Hn.
  exists (wait_for_timeout (duration_cast_milliseconds tick_num tick_den rel_time)).
  split; [by apply (wait_for_enters s)|].
  split; [by apply (wait_for_timeout_passed _ _ _ _ _ _ Hs Hq Hrun)|].
  rewrite duration_cast_exact by nia.
  set (a := rel_time * (Z.pos tick_num * 1000)) in *.
  assert (Ha : 0 ≤ a) by (unfold a; nia).
  rewrite Z.quot_div_nonneg by lia.
  pose proof (Z.div_mod a (Z.pos tick_den) ltac:(lia)) as Hdm.
  pose proof (Z.mod_pos_bound a (Z.pos tick_den) ltac:(lia)) as Hmod.
  assert (Hq' : 0 ≤ a / Z.pos tick_den) by (apply Z.div_pos; lia).
  assert (Hsmall : a / Z.pos tick_den < 4294967295)
    by (apply Z.div_lt_upper_bound; lia).
  assert (E : wait_for_timeout (a / Z.pos tick_den) = a / Z.pos tick_den).
  { rewrite wait_for_timeout_max, Z.max_r by lia. apply Z.mod_small. lia. }
  rewrite E. unfold INFINITE. repeat split; try nia.
  all: intros Hsub; apply Z.div_small; lia.
Qed.

(** X15. wait_for(lock, rel_time), in either engine, with a positive
    duration so long that its count times the tick-to-millisecond factor
    reaches 2^63 and wraps to a negative 64-bit value: the negative count is
    clamped to zero, so wait_impl is handed the zero time-out and every wait
    the call makes only polls, where the caller asked for a long wait. *)
Theorem wait_for_overflow_polls s t rel_time s1 sched s2 :
  0 < rel_time →
  long_long (rel_time * ratio_num tick_num tick_den) < 0 →
  step s (Client t (op_call (call_wait_for rel_time))) = Some s1 →
  Forall (quiet t) sched →
  run sched s1 = Some s2 →
  threads s1 !! t = Some (wait_impl 0 k_wait_for)
  ∧ (∀ time k,
       threads s2 !! t = Some (W_block time k)
       ∨ threads s2 !! t = Some (V_parked time k) →
       time = 0
       ∧ (halted (objects s2) = None → is_Some (step s2 (Run t))))
  ∧ (2 ^ 63 ≤ rel_time * ratio_num tick_num tick_den < 2 ^ 64 →
     long_long (rel_time * ratio_num tick_num tick_den)
     = rel_time * ratio_num tick_num tick_den - 2 ^ 64).
Proof.
  intros Hpos Hneg Hs Hq Hrun.
  pose proof (ratio_den_pos tick_num tick_den) as Hd.
  assert (E : wait_for_timeout
                (duration_cast_milliseconds tick_num tick_den rel_time) = 0).
  { unfold duration_cast_milliseconds.
    set (a := long_long (rel_time * ratio_num tick_num tick_den)) in *.
    clearbody a.
    assert (Hle : a ÷ ratio_den tick_num tick_den ≤ 0).
    { replace a with (- - a) by lia. rewrite Z.quot_opp_l by lia.
      assert (Ha : 0 ≤ - a) by lia.
      assert (Hb : 0 < ratio_den tick_num tick_den) by lia.
      pose proof (Z.quot_pos _ _ Ha Hb). lia. }
    rewrite wait_for_timeout_max. by rewrite Z.max_l by lia. }
  split; [|split].
  - rewrite <- E. by apply (wait_for_enters s).
  - intros time k Ht.
    pose proof (wait_for_timeout_passed _ _ _ _ _ _ Hs Hq Hrun _ _ Ht) as ->.
    rewrite E in *. split; [done|]. intros Hh.
    destruct Ht as [Ht|Ht]; rewrite (step_Run _ _ _ Hh Ht); simpl; [|done].
    destruct (mSemaphore (objects s2)) as [x|]; simpl; [|done].
    unfold semaphore_acquire. by destruct (0 <? x).
  - intros Hrange. unfold long_long.
    replace (rel_time * ratio_num tick_num tick_den + 2 ^ 63)
      with (rel_time * ratio_num tick_num tick_den - 2 ^ 63 + 1 * 2 ^ 64) by lia.
    rewrite Z.mod_add by lia. rewrite Z.mod_small; lia.
Qed.

Lemma set_mMutex_back (sh : shared) m :
  mMutex sh = None → set_mMutex None (set_mMutex m sh) = sh.
Proof. destruct sh. simpl. by intros ->. Qed.

(** X12. notify_one and notify_all of the emulated engine with no waiter
    registered: the call takes the guard, reads the count and returns,
    leaving the semaphore, the event, the count and every other shared
    object exactly as they were. *)
Theorem notify_without_waiters_is_a_no_op s t p c :
  engine = XP →
  halted (objects s) = None →
  threads s !! t = Some p →
  (p = Idle ∨ ∃ r, p = Done r) →
  (c = call_notify_one ∨ c = call_notify_all) →
  mMutex (objects s) = None →
  mNumWaiters (objects s) = 0 →
  run [Client t (op_call c); Run t; Run t; Run t] s
  = Some {| objects := objects s;
            threads := <[t := Done returned_notify]> (threads s) |}.
Proof.
  intros He Hh Ht Hp Hc Hm Hn.
  assert (Hlt : (t < length (threads s))%nat) by by eapply lookup_lt_Some.
  assert (Hstep : ∀ sh l q,
    halted sh = None → (t < length l)%nat →
    step {| objects := sh; threads := <[t := q]> l |} (Run t)
    = match decode q in_run with
      | Some (a, k) =>
          match perform t a false sh with
          | Some (sh', r) =>
              Some {| objects := sh'; threads := <[t := k r]> l |}
          | None => None
          end
      | None => None
      end).
  { intros sh l q Hh' Hl.
    rewrite (step_Run {| objects := sh; threads := <[t := q]> l |} t q Hh')
      by by apply list_lookup_insert_eq.
    simpl. destruct (decode q in_run) as [[a k]|]; [|done].
    destruct (perform t a false sh) as [[sh' r]|]; [|done].
    by rewrite list_insert_insert_eq. }
  assert (Hfirst : step s (Client t (op_call c))
                   = Some {| objects := objects s;
                             threads := <[t := enter c]> (threads s) |}).
  { unfold step, exec. rewrite Hh, Ht.
    destruct Hp as [->|[r ->]]; destruct Hc as [->| ->]; done. }
  simpl. rewrite Hfirst.
  destruct Hc as [->| ->]; simpl; unfold notify_one, notify_all; rewrite He;
    rewrite Hstep by done; simpl; rewrite Hm; simpl;
    rewrite Hstep by done; simpl; rewrite Hn; simpl;
    rewrite Hstep by done; simpl; rewrite Nat.eqb_refl;
    by rewrite set_mMutex_back.
Qed.

End Composition.

(** ** The any-lock adapter *)

Section Adapter.

Lemma any_statement_inv s t expired p l m q :
  any_inv s →
  any_threads s !! t = Some p →
  any_statement t expired p (caller_lock s) (internal_mutex_ s) = Some (l, m, q) →
  any_inv {| caller_lock := l; internal_mutex_ := m;
             any_threads := <[t := q]> (any_threads s) |}.
Proof.
  intros [I1 I2 I3 I4] Ht H.
  assert (Hlt : (t < length (any_threads s))%nat) by by eapply lookup_lt_Some.
  pose proof (I1 t p Ht) as L. pose proof (I2 t p Ht) as M.
  assert (Hother : ∀ u r, u ≠ t → <[t := q]> (any_threads s) !! u = Some r →
                          any_threads s !! u = Some r).
  { intros u r Hu. by rewrite list_lookup_insert_ne. }
  destruct p; simpl in H, L, M; unfold owned_by in H;
    repeat case_match; simplify_eq;
    try match goal with E : (_ =? _)%nat = true |- _ =>
      apply Nat.eqb_eq in E; subst end.
  all: split; simpl.
  all: try (intros u r Hu; destruct (decide (u = t)) as [->|Hne];
    [ rewrite list_lookup_insert_eq in Hu by done; simplify_eq; simpl
    | apply Hother in Hu; [|done];
      pose proof (I1 u r Hu) as L'; pose proof (I2 u r Hu) as M' ]).
  all: try (intros u Hu; destruct (decide (u = t)) as [->|Hne];
    [ rewrite list_lookup_insert_eq by done
    | rewrite list_lookup_insert_ne by done ]).
  all: try (intros u; destruct (decide (u = t)) as [->|Hne];
    [ by rewrite list_lookup_insert_eq by done
    | rewrite list_lookup_insert_ne by done; apply I4 ]).
  all: try done.
  all: try congruence.
  all: try (destruct (any_holds_lock r) as [[|]|]; congruence).
  all: try (split; [intros ?; apply M' in H; congruence
                   | intros ?; simplify_eq; tauto]).
  all: try (split; [done | intros ?; simplify_eq; apply M; congruence]).
  all: try (by apply I3).
  all: try tauto.
  all: try (destruct M as [M _]; specialize (M eq_refl); simplify_eq;
            by rewrite Nat.eqb_refl in *).
  all: try (intros ?; simplify_eq; apply M' in H;
            by rewrite Nat.eqb_refl in * ).
Qed.

Lemma any_client_inv s t p l q :
  any_inv s →
  any_threads s !! t = Some p →
  any_in_client p = true →
  (l = Some t ∧ q = G_client ∧ caller_lock s = None)
  ∨ (l = None ∧ q = G_client ∧ caller_lock s = Some t)
  ∨ (l = caller_lock s ∧ (∃ time, q = G_internal time)
     ∧ caller_lock s = Some t) →
  any_inv {| caller_lock := l; internal_mutex_ := internal_mutex_ s;
             any_threads := <[t := q]> (any_threads s) |}.
Proof.
  intros [I1 I2 I3 I4] Ht Hp Hq.
  assert (Hlt : (t < length (any_threads s))%nat) by by eapply lookup_lt_Some.
  pose proof (I1 t p Ht) as L. pose proof (I2 t p Ht) as M.
  assert (Hint : internal_mutex_ s ≠ Some t).
  { intros E. apply M in E. by destruct p. }
  destruct Hq as [(-> & -> & Hfree)|[(-> & -> & Hown)|(-> & [time ->] & Hown)]];
    split; simpl.
  all: try (intros u r Hu; destruct (decide (u = t)) as [->|Hne];
    [ rewrite list_lookup_insert_eq in Hu by done; simplify_eq; simpl
    | rewrite list_lookup_insert_ne in Hu by done;
      pose proof (I1 u r Hu) as L'; pose proof (I2 u r Hu) as M' ]).
  all: try (intros u; destruct (decide (u = t)) as [->|Hne];
    [ by rewrite list_lookup_insert_eq by done
    | rewrite list_lookup_insert_ne by done; first [apply I4 | apply I3] ]).
  all: try done.
  all: try (split; [done | by intros ?]).
  all: try (rewrite Hfree in L'; destruct (any_holds_lock r) as [[|]|];
            congruence).
  all: try (rewrite Hown in L'; destruct (any_holds_lock r) as [[|]|];
            congruence).
Qed.

Lemma any_step_inv s e s' : any_inv s → any_step s e = Some s' → any_inv s'.
Proof.
  intros I H. destruct e as [t|t|t time|t|t]; simpl in H.
  - destruct (any_threads s !! t) as [p|] eqn:Ht; [|done].
    destruct (caller_lock s) eqn:Hl; [done|].
    destruct (any_in_client p) eqn:Hp; [|done]. simplify_eq.
    eapply any_client_inv; [done|done|done|]. left. by rewrite Hl.
  - destruct (any_threads s !! t) as [p|] eqn:Ht; [|done].
    destruct (any_in_client p) eqn:Hp; [|done].
    destruct (owned_by t (caller_lock s)) eqn:Ho; [|done]. simpl in H.
    simplify_eq. eapply any_client_inv; [done|done|done|]. right; left.
    unfold owned_by in Ho. destruct (caller_lock s); [|done].
    apply Nat.eqb_eq in Ho. by subst.
  - destruct (any_threads s !! t) as [p|] eqn:Ht; [|done].
    destruct (any_in_client p) eqn:Hp; [|done].
    destruct (owned_by t (caller_lock s)) eqn:Ho; [|done]. simpl in H.
    simplify_eq. eapply any_client_inv; [done|done|done|]. right; right.
    unfold owned_by in Ho. destruct (caller_lock s); [|done].
    apply Nat.eqb_eq in Ho. subst. eauto.
  - unfold any_advance in H.
    destruct (any_threads s !! t) as [p|] eqn:Ht; [|done].
    destruct (any_statement _ _ _ _ _) as [[[l m] q]|] eqn:E; [|done].
    simplify_eq. by eapply any_statement_inv.
  - unfold any_advance in H.
    destruct (any_threads s !! t) as [p|] eqn:Ht; [|done].
    destruct (any_statement _ _ _ _ _) as [[[l m] q]|] eqn:E; [|done].
    simplify_eq. by eapply any_statement_inv.
Qed.

Lemma any_run_inv sched : ∀ s s',
  any_inv s → any_run sched s = Some s' → any_inv s'.
Proof.
  induction sched as [|e sched IH]; intros s s' I H; simpl in H.
  - by simplify_eq.
  - destruct (any_step s e) as [s1|] eqn:E; [|done].
    eapply IH; [|done]. by eapply any_step_inv.
Qed.

Lemma any_init_inv n : any_inv (any_init n).
Proof.
  split; simpl.
  - intros t p Ht. apply lookup_replicate in Ht as [-> _]. done.
  - intros t p Ht. apply lookup_replicate in Ht as [-> _]. done.
  - done.
  - intros t Ht. by apply lookup_replicate in Ht as [? _].
Qed.

(** X13. The generic wait_impl of the any-lock adapter, over all schedules:
    a thread inside it holds exactly the locks the statement it is at
    expects: both on entry and at the return, none while it sleeps, only
    internal_mutex_ while it takes the caller's lock again; the call gives
    the caller's lock and internal_mutex_ back in the state it found them
    (the caller owns its lock, internal_mutex_ is not the caller's), and the
    owner check of base::wait_impl (line 248) never throws. *)
Theorem any_lock_wait_holds_the_right_locks n sched s t p :
  any_run sched (any_init n) = Some s →
  any_threads s !! t = Some p →
  p ≠ G_thrown
  ∧ (∀ b, p = G_returned b →
       caller_lock s = Some t ∧ internal_mutex_ s ≠ Some t)
  ∧ (∀ time, p = G_asleep time →
       caller_lock s ≠ Some t ∧ internal_mutex_ s ≠ Some t)
  ∧ (∀ b, p = G_relock b →
       caller_lock s ≠ Some t ∧ internal_mutex_ s = Some t)
  ∧ (∀ b, p = G_unguard b →
       caller_lock s = Some t ∧ internal_mutex_ s = Some t)
  ∧ (∀ u q, any_threads s !! u = Some q →
       any_holds_internal p = true → any_holds_internal q = true → u = t)
  ∧ (∀ time, p = G_internal time →
       caller_lock s = Some t ∧ internal_mutex_ s ≠ Some t)
  ∧ (∀ time, p = G_unlock time →
       caller_lock s = Some t ∧ internal_mutex_ s = Some t).
Proof.
  intros Hrun Ht.
  pose proof (any_run_inv _ _ _ (any_init_inv n) Hrun) as [I1 I2 I3 I4].
  pose proof (I1 t p Ht) as L. pose proof (I2 t p Ht) as M.
  repeat split.
  - intros ->. by apply (I4 t).
  - by subst.
  - intros E. apply M in E. by subst.
  - by subst.
  - intros E. apply M in E. by subst.
  - by subst.
  - apply M. by subst.
  - by subst.
  - apply M. by subst.
  - intros u q Hu Hp Hq. apply M in Hp. apply (I2 u q Hu) in Hq. congruence.
  - by subst.
  - intros E. apply M in E. by subst.
  - by subst.
  - apply M. by subst.
Qed.

Lemma any_embrace_step s a b sa tb e s' :
  any_threads s !! a = Some (G_relock sa) →
  any_threads s !! b = Some (G_internal tb) →
  caller_lock s = Some b →
  internal_mutex_ s = Some a →
  any_step s e = Some s' →
  any_threads s' !! a = Some (G_relock sa)
  ∧ any_threads s' !! b = Some (G_internal tb)
  ∧ caller_lock s' = Some b
  ∧ internal_mutex_ s' = Some a.
Proof.
  intros Ha Hb Hl Hm H.
  assert (Hadv : ∀ t expired, any_advance t expired s = Some s' →
    any_threads s' !! a = Some (G_relock sa)
    ∧ any_threads s' !! b = Some (G_internal tb)
    ∧ caller_lock s' = Some b ∧ internal_mutex_ s' = Some a).
  { intros t expired H'. unfold any_advance in H'.
    destruct (any_threads s !! t) as [p|] eqn:Ht; [|done].
    destruct (any_statement _ _ _ _ _) as [[[l m] q]|] eqn:E; [|done].
    simplify_eq. simpl. rewrite Hl, Hm in E.
    destruct (decide (t = a)) as [->|Hta]; [by simplify_eq|].
    destruct (decide (t = b)) as [->|Htb]; [by simplify_eq|].
    rewrite !list_lookup_insert_ne by done.
    destruct p; simpl in E; repeat case_match; simplify_eq;
      try match goal with E : (_ =? _)%nat = true |- _ =>
        apply Nat.eqb_eq in E; subst end; done. }
  destruct e as [t|t|t time|t|t]; simpl in H; eauto.
  - rewrite Hl in H. by destruct (any_threads s !! t).
  - destruct (any_threads s !! t) as [p|] eqn:Ht; [|done].
    destruct (any_in_client p) eqn:Hp; [|done].
    rewrite Hl in H. simpl in H.
    destruct (b =? t)%nat eqn:Hbt; [|done].
    apply Nat.eqb_eq in Hbt. by simplify_eq.
  - destruct (any_threads s !! t) as [p|] eqn:Ht; [|done].
    destruct (any_in_client p) eqn:Hp; [|done].
    destruct (owned_by t (caller_lock s)); [|done]. simpl in H.
    simplify_eq. simpl.
    destruct (decide (t = a)) as [->|Hta]; [by simplify_eq|].
    destruct (decide (t = b)) as [->|Htb]; [by simplify_eq|].
    by rewrite !list_lookup_insert_ne by done.
Qed.

(** X14. The generic wait_impl of the any-lock adapter can block for good.
    Once a thread that is back from its sleep asks for the caller's lock
    while it still holds internal_mutex_ (line 359), and the thread that
    owns the caller's lock has called wait and asks for internal_mutex_
    (line 356), then whatever any thread does afterwards both stay at these
    statements: neither can take a step, and both locks stay taken. *)
Theorem any_lock_wait_can_block_for_good s a b sa tb sched s' :
  any_threads s !! a = Some (G_relock sa) →
  any_threads s !! b = Some (G_internal tb) →
  caller_lock s = Some b →
  internal_mutex_ s = Some a →
  any_run sched s = Some s' →
  any_threads s' !! a = Some (G_relock sa)
  ∧ any_threads s' !! b = Some (G_internal tb)
  ∧ caller_lock s' = Some b
  ∧ internal_mutex_ s' = Some a
  ∧ (∀ expired, any_advance a expired s' = None)
  ∧ (∀ expired, any_advance b expired s' = None).
Proof.
  revert s. induction sched as [|e sched IH]; intros s Ha Hb Hl Hm H;
    simpl in H.
  - simplify_eq. repeat split; try done.
    + intros expired. unfold any_advance. by rewrite Ha, Hl.
    + intros expired. unfold any_advance. by rewrite Hb, Hm.
  - destruct (any_step s e) as [s1|] eqn:E; [|done].
    destruct (any_embrace_step _ _ _ _ _ _ _ Ha Hb Hl Hm E)
      as (Ha1 & Hb1 & Hl1 & Hm1).
    by apply (IH s1).
Qed.

End Adapter.


(** ** The further properties on concrete runs *)

(** The exception of line 97 on a build whose semaphore could not be
    created. *)
Lemma failures_need_null_handles_witness :
  Z.of_nat 1 < 2 ^ 31
  ∧ reachable (cfg := xp_debug) false true tt 1 thrown_to_caller
  ∧ threads thrown_to_caller !! 0%nat = Some (Done (thrown EPROTO))
  ∧ halted (objects thrown_to_caller) ≠ Some Terminated.
Proof.
  assert (H1 : Z.of_nat 1 < 2 ^ 31) by reflexivity.
  assert (H2 : reachable (cfg := xp_debug) false true tt 1 thrown_to_caller)
    by (exists (wait_up_to_relock ++ [Run 0]); vm_compute; reflexivity).
  assert (H3 : threads thrown_to_caller !! 0%nat = Some (Done (thrown EPROTO)))
    by (vm_compute; reflexivity).
  destruct (failures_need_null_handles _ _ _ _ _ 0%nat H1 H2)
    as (_ & Hterm & _).
  split; [exact H1|]. split; [exact H2|]. split; [exact H3|].
  intros E. destruct (Hterm E) as [_ E']. discriminate E'.
Defined.

(** notify_all at line 127, its waiter gone. *)
Lemma notify_all_assertion_holds_witness :
  threads at_assert !! 1%nat = Some NA_assert
  ∧ mNumWaiters (objects at_assert) = 0.
Proof.
  assert (H1 : Z.of_nat 2 < 2 ^ 31) by reflexivity.
  assert (H2 : reachable (cfg := xp_debug) true true tt 2 at_assert)
    by (exists up_to_assert; vm_compute; reflexivity).
  assert (H3 : halted (objects at_assert) = None) by (vm_compute; reflexivity).
  assert (H4 : threads at_assert !! 1%nat = Some NA_assert)
    by (vm_compute; reflexivity).
  split; [exact H4|].
  exact (proj1 (notify_all_assertion_holds _ _ _ _ _ _ H1 H2 H3 H4)).
Defined.

(** notify_one about to release its unit, two waiters counted. *)
Lemma notify_one_waits_for_a_waiter_witness :
  threads race_start !! 2%nat = Some (NO_release 1)
  ∧ mNumWaiters (objects race_start) ≤ 1 + 1
  ∧ mMutex (objects race_start) = Some (2%nat, 1%nat).
Proof.
  assert (H1 : Z.of_nat 3 ≤ 32768) by (vm_compute; discriminate).
  assert (H2 : reachable (cfg := xp_debug) true true tt 3 race_start)
    by (exists two_parked_one_notifying; vm_compute; reflexivity).
  assert (H3 : threads race_start !! 2%nat = Some (NO_release 1))
    by (vm_compute; reflexivity).
  assert (H4 : target_of (cfg := xp_debug) (NO_release 1) = Some 1)
    by reflexivity.
  destruct (notify_one_waits_for_a_waiter _ _ _ _ _ _ _ _ H1 H2 H3 H4)
    as (_ & Hcount & _ & Hguard).
  split; [exact H3|]. split; [exact Hcount|exact Hguard].
Defined.

(** notify_one at the test of line 142, the count still above its target. *)
Lemma notify_one_wakes_a_waiter_witness :
  1 < mNumWaiters (objects one_released)
  ∧ ∃ u q, u ≠ 2%nat ∧ threads one_released !! u = Some q
           ∧ parked q = true ∧ is_Some (step one_released (Run u)).
Proof.
  assert (H1 : Z.of_nat 3 ≤ 32768) by (vm_compute; discriminate).
  assert (H2 : reachable (cfg := xp_debug) true true tt 3 one_released)
    by (exists (two_parked_one_notifying ++ [Run 2]); vm_compute; reflexivity).
  assert (H3 : halted (objects one_released) = None)
    by (vm_compute; reflexivity).
  assert (H4 : threads one_released !! 2%nat = Some (NO_loop 1))
    by (vm_compute; reflexivity).
  assert (H5 : in_notify_one_loop (cfg := xp_debug) (NO_loop 1) = true)
    by reflexivity.
  assert (H6 : target_of (cfg := xp_debug) (NO_loop 1) = Some 1)
    by reflexivity.
  assert (H7 : 1 < mNumWaiters (objects one_released))
    by (vm_compute; reflexivity).
  split; [exact H7|].
  exact (proj2 (notify_one_wakes_a_waiter _ _ _ _ _ _ _ _
                  H1 H2 H3 H4 H5 H6 H7)).
Defined.

(** notify_all at the test of line 121, its waiter still blocked. *)
Lemma notify_all_has_a_unit_for_each_witness :
  threads all_released !! 0%nat = Some (W_block INFINITE k_wait)
  ∧ is_Some (step all_released (Run 0)).
Proof.
  assert (H1 : Z.of_nat 2 ≤ 32768) by (vm_compute; discriminate).
  assert (H2 : reachable (cfg := xp_debug) true true tt 2 all_released)
    by (exists release_all; vm_compute; reflexivity).
  assert (H3 : halted (objects all_released) = None)
    by (vm_compute; reflexivity).
  assert (H4 : threads all_released !! 1%nat = Some NA_loop)
    by (vm_compute; reflexivity).
  assert (H5 : in_notify_all_loop (cfg := xp_debug) NA_loop = true)
    by reflexivity.
  assert (H6 : threads all_released !! 0%nat = Some (W_block INFINITE k_wait))
    by (vm_compute; reflexivity).
  split; [exact H6|].
  exact (proj2 (notify_all_has_a_unit_for_each _ _ _ _ _ _ _
                  H1 H2 H3 H4 H5) _ _ _ H6).
Defined.

(** The guard while notify_one is inside it and two waiters are blocked. *)
Lemma guard_is_exclusive_witness :
  Z.of_nat 3 < 2 ^ 31
  ∧ reachable (cfg := xp_debug) true true tt 3 race_start
  ∧ mMutex (objects race_start) ≠ Some (0%nat, 1%nat).
Proof.
  assert (H1 : Z.of_nat 3 < 2 ^ 31) by reflexivity.
  assert (H2 : reachable (cfg := xp_debug) true true tt 3 race_start)
    by (exists two_parked_one_notifying; vm_compute; reflexivity).
  assert (H3 : threads race_start !! 0%nat = Some (W_block 50 k_wait_for))
    by (vm_compute; reflexivity).
  assert (H4 : in_guard (cfg := xp_debug) (W_block 50 k_wait_for) = false)
    by reflexivity.
  destruct (guard_is_exclusive _ _ _ _ _ H1 H2) as (_ & _ & Houtside).
  split; [exact H1|]. split; [exact H2|].
  exact (Houtside _ _ 1%nat H3 H4).
Defined.

(** The lock of a caller that was handed the exception of line 97. *)
Lemma waits_return_with_lock_witness :
  threads thrown_to_caller !! 0%nat = Some (Done (thrown EPROTO))
  ∧ lock_owner (objects thrown_to_caller) = Some 0%nat.
Proof.
  assert (H1 : Z.of_nat 1 < 2 ^ 31) by reflexivity.
  assert (H2 : reachable (cfg := xp_debug) false true tt 1 thrown_to_caller)
    by (exists (wait_up_to_relock ++ [Run 0]); vm_compute; reflexivity).
  assert (H3 : threads thrown_to_caller !! 0%nat = Some (Done (thrown EPROTO)))
    by (vm_compute; reflexivity).
  destruct (waits_return_with_lock _ _ _ _ _ _ _ H1 H2 H3) as (Hdone & _).
  split; [exact H3|].
  apply (Hdone (thrown EPROTO)); [reflexivity|discriminate].
Defined.

(** wait_for handing back no_timeout. *)
Lemma timed_wait_results_witness :
  step poll_relocking (Run 0) = Some poll_returned
  ∧ threads poll_returned !! 0%nat = Some (Done (returned_status no_timeout))
  ∧ lock_owner (objects poll_returned) = Some 0%nat.
Proof.
  assert (H1 : Z.of_nat 2 < 2 ^ 31) by reflexivity.
  assert (H2 : reachable (cfg := xp_debug) true true tt 2 poll_relocking)
    by (exists poll_up_to_relock; vm_compute; reflexivity).
  assert (H3 : step poll_relocking (Run 0) = Some poll_returned)
    by (vm_compute; reflexivity).
  assert (H4 : threads poll_returned !! 0%nat
               = Some (Done (returned_status no_timeout)))
    by (vm_compute; reflexivity).
  destruct (timed_wait_results _ _ _ _ _ 0%nat _ H1 H2 (or_introl H3))
    as (_ & _ & Hstatus).
  split; [exact H3|]. split; [exact H4|].
  exact (proj1 (Hstatus _ H4)).
Defined.

(** wait_until called with the deadline 0 at time 0, its wait made at
    time 5. *)
Lemma wait_until_past_deadline_polls_witness :
  threads at_late_wait !! 0%nat = Some (W_block 0 k_wait_for)
  ∧ is_Some (step at_late_wait (Run 0)).
Proof.
  assert (H1 : 0 ≤ clock (objects before_poll)) by (vm_compute; discriminate).
  assert (H2 : step before_poll (Client 0 (op_call (call_wait_until 0)))
               = Some deadline_passed) by (vm_compute; reflexivity).
  assert (H3 : Forall (quiet (cfg := xp_debug) 0) up_to_wait)
    by (repeat constructor).
  assert (H4 : run up_to_wait deadline_passed = Some at_late_wait)
    by (vm_compute; reflexivity).
  assert (H5 : threads at_late_wait !! 0%nat = Some (W_block 0 k_wait_for))
    by (vm_compute; reflexivity).
  assert (H6 : halted (objects at_late_wait) = None)
    by (vm_compute; reflexivity).
  assert (H7 : - 2 ^ 63 ≤ (0 - clock (objects at_late_wait))
                          * ratio_num (tick_num (Config := xp_debug))
                                      (tick_den (Config := xp_debug)))
    by (vm_compute; discriminate).
  split; [exact H5|].
  exact (proj2 (wait_until_past_deadline_polls _ _ _ _ _ _ _
                  H1 H7 (or_introl eq_refl) H2 H3 H4 _ _ (or_introl H5)) H6).
Defined.

(** The release of line 141. *)
Lemma operations_leave_client_state_witness :
  step race_start (Run 2) = Some one_released
  ∧ data (objects one_released) = data (objects race_start)
  ∧ lock_owner (objects one_released) = lock_owner (objects race_start).
Proof.
  assert (H1 : threads race_start !! 2%nat = Some (NO_release 1))
    by (vm_compute; reflexivity).
  assert (H2 : step race_start (Run 2) = Some one_released)
    by (vm_compute; reflexivity).
  destruct (operations_leave_client_state _ _ _ _ H1 (or_introl H2))
    as (Hdata & _ & Hlock).
  split; [exact H2|]. split; [exact Hdata|].
  apply Hlock. reflexivity.
Defined.

(** 2500 ticks of a microsecond become 2 ms. *)
Lemma wait_for_rounds_down_witness :
  step before_micro (Client 0 (op_call (call_wait_for 2500)))
  = Some micro_called
  ∧ run up_to_block micro_called = Some at_micro_wait
  ∧ threads at_micro_wait !! 0%nat = Some (W_block 2 k_wait_for)
  ∧ 2 * Z.pos (tick_den (Config := xp_micro))
    ≤ 2500 * (Z.pos (tick_num (Config := xp_micro)) * 1000)
  ∧ 2500 * (Z.pos (tick_num (Config := xp_micro)) * 1000)
    < (2 + 1) * Z.pos (tick_den (Config := xp_micro)).
Proof.
  assert (H1 : 0 ≤ 2500) by discriminate.
  assert (H2 : 2500 * ratio_num (tick_num (Config := xp_micro))
                                (tick_den (Config := xp_micro)) < 2 ^ 63)
    by reflexivity.
  assert (H3 : 2500 * (Z.pos (tick_num (Config := xp_micro)) * 1000)
               < 4294967295 * Z.pos (tick_den (Config := xp_micro)))
    by reflexivity.
  assert (H4 : step before_micro (Client 0 (op_call (call_wait_for 2500)))
               = Some micro_called) by (vm_compute; reflexivity).
  assert (H5 : Forall (quiet (cfg := xp_micro) 0) up_to_block)
    by (repeat constructor).
  assert (H6 : run up_to_block micro_called = Some at_micro_wait)
    by (vm_compute; reflexivity).
  assert (H7 : threads at_micro_wait !! 0%nat = Some (W_block 2 k_wait_for))
    by (vm_compute; reflexivity).
  destruct (wait_for_rounds_down _ _ _ _ _ _ H1 H2 H3 H4 H5 H6)
    as (passed & _ & Hpassed & _ & Hle & Hlt & _).
  rewrite <- (Hpassed 2 k_wait_for (or_introl H7)) in Hle, Hlt.
  split; [exact H4|]. split; [exact H6|]. split; [exact H7|].
  split; [exact Hle|exact Hlt].
Defined.

(** 0xFFFFFFFF ms: the wait is made with INFINITE and cannot time out. *)
Lemma wait_for_timeout_wraps_witness :
  threads at_long_wait !! 0%nat = Some (W_block INFINITE k_wait_for)
  ∧ mSemaphore (objects at_long_wait) = Some 0
  ∧ ¬ is_Some (step at_long_wait (Expire 0)).
Proof.
  assert (H1 : 4294967295
               = duration_cast_milliseconds (tick_num (Config := xp_debug))
                   (tick_den (Config := xp_debug)) 4294967295)
    by reflexivity.
  assert (H2 : step before_poll (Client 0 (op_call (call_wait_for 4294967295)))
               = Some long_wait_called) by (vm_compute; reflexivity).
  assert (H3 : Forall (quiet (cfg := xp_debug) 0) up_to_block)
    by (repeat constructor).
  assert (H4 : run up_to_block long_wait_called = Some at_long_wait)
    by (vm_compute; reflexivity).
  assert (H5 : threads at_long_wait !! 0%nat
               = Some (W_block INFINITE k_wait_for))
    by (vm_compute; reflexivity).
  assert (H6 : mSemaphore (objects at_long_wait) = Some 0)
    by (vm_compute; reflexivity).
  assert (H7 : 0 ≤ 0) by discriminate.
  assert (H8 : halted (objects at_long_wait) = None)
    by (vm_compute; reflexivity).
  destruct (wait_for_timeout_wraps _ _ _ _ _ _ _ H1 H2 H3 H4)
    as (_ & _ & Hexpire & _).
  split; [exact H5|]. split; [exact H6|].
  intros He. by apply (Hexpire _ _ _ H5 H6 H7 H8) in He.
Defined.

(** 9223372036854776 seconds: the wait is made with a zero time-out. *)
Lemma wait_for_overflow_polls_witness :
  threads seconds_called !! 0%nat = Some (W_guard 0 k_wait_for)
  ∧ threads at_seconds_wait !! 0%nat = Some (W_block 0 k_wait_for)
  ∧ is_Some (step at_seconds_wait (Run 0)).
Proof.
  assert (H1 : 0 < 9223372036854776) by reflexivity.
  assert (H2 : long_long (9223372036854776
                          * ratio_num (tick_num (Config := xp_seconds))
                                      (tick_den (Config := xp_seconds))) < 0)
    by reflexivity.
  assert (H3 : step before_seconds
                 (Client 0 (op_call (call_wait_for 9223372036854776)))
               = Some seconds_called) by (vm_compute; reflexivity).
  assert (H4 : Forall (quiet (cfg := xp_seconds) 0) up_to_block)
    by (repeat constructor).
  assert (H5 : run up_to_block seconds_called = Some at_seconds_wait)
    by (vm_compute; reflexivity).
  assert (H6 : threads at_seconds_wait !! 0%nat = Some (W_block 0 k_wait_for))
    by (vm_compute; reflexivity).
  assert (H7 : halted (objects at_seconds_wait) = None)
    by (vm_compute; reflexivity).
  destruct (wait_for_overflow_polls _ _ _ _ _ _ H1 H2 H3 H4 H5)
    as (Hentry & Hwait & _).
  split; [exact Hentry|]. split; [exact H6|].
  exact (proj2 (Hwait _ _ (or_introl H6)) H7).
Defined.

(** notify_one on a condition variable nobody waits on. *)
Lemma notify_without_waiters_is_a_no_op_witness :
  run [Client 0 (op_call call_notify_one); Run 0; Run 0; Run 0] fresh
  = Some {| objects := objects fresh;
            threads := <[0%nat := Done returned_notify]> (threads fresh) |}.
Proof.
  assert (H1 : engine (Config := xp_debug) = XP) by reflexivity.
  assert (H2 : halted (objects fresh) = None) by reflexivity.
  assert (H3 : threads fresh !! 0%nat = Some Idle) by reflexivity.
  assert (H4 : mMutex (objects fresh) = None) by reflexivity.
  assert (H5 : mNumWaiters (objects fresh) = 0) by reflexivity.
  exact (notify_without_waiters_is_a_no_op fresh 0%nat Idle call_notify_one
           H1 H2 H3 (or_introl eq_refl) (or_introl eq_refl) H4 H5).
Defined.

(** A wait through the adapter that timed out. *)
Lemma any_lock_wait_holds_the_right_locks_witness :
  any_run any_time_out (any_init 1) = Some any_timed_out
  ∧ any_threads any_timed_out !! 0%nat = Some (G_returned false)
  ∧ caller_lock any_timed_out = Some 0%nat
  ∧ internal_mutex_ any_timed_out ≠ Some 0%nat.
Proof.
  assert (H1 : any_run any_time_out (any_init 1) = Some any_timed_out)
    by (vm_compute; reflexivity).
  assert (H2 : any_threads any_timed_out !! 0%nat = Some (G_returned false))
    by (vm_compute; reflexivity).
  destruct (any_lock_wait_holds_the_right_locks _ _ _ _ _ H1 H2)
    as (_ & Hret & _).
  split; [exact H1|]. split; [exact H2|].
  exact (Hret false eq_refl).
Defined.

(** Two threads in each other's way, and a third that wakes up later. *)
Lemma any_lock_wait_can_block_for_good_witness :
  any_run any_embrace (any_init 3) = Some any_embraced
  ∧ ∃ s', any_run [G_run 2] any_embraced = Some s'
          ∧ any_advance 0 false s' = None
          ∧ any_advance 1 false s' = None.
Proof.
  split; [vm_compute; reflexivity|].
  assert (H1 : any_threads any_embraced !! 0%nat = Some (G_relock true))
    by (vm_compute; reflexivity).
  assert (H2 : any_threads any_embraced !! 1%nat = Some (G_internal INFINITE))
    by (vm_compute; reflexivity).
  assert (H3 : caller_lock any_embraced = Some 1%nat)
    by (vm_compute; reflexivity).
  assert (H4 : internal_mutex_ any_embraced = Some 0%nat)
    by (vm_compute; reflexivity).
  assert (H5 : any_run [G_run 2] any_embraced
               = Some (default any_embraced (any_run [G_run 2] any_embraced)))
    by (vm_compute; reflexivity).
  destruct (any_lock_wait_can_block_for_good _ _ _ _ _ _ _ H1 H2 H3 H4 H5)
    as (_ & _ & _ & _ & Ha & Hb).
  eexists. split; [exact H5|]. split; [apply Ha|apply Hb].
Defined.
